(** * mitiq: Observable (term partitioning, matrix) and Clifford training data

    A shallow embedding of [mitiq/observable/observable.py] and of the
    operations exercised by [mitiq/cdr/test_clifford_training_data.py].

    Python objects that are shared and mutated (the term set of an
    [Observable], the working copy that [partition] pops from) live in an
    explicit object store; methods are computations in a small state and
    error monad over that store. *)

From stdpp Require Import gmap list sorting strings.
From Stdlib Require Import QArith Qround Qabs Lqa.
Close Scope Q_scope.

(** ** Scalars

    The entries of [numpy] arrays of the chosen [dtype], with the operations
    the matrix code uses.  No algebraic law is assumed of them. *)

Class Scalar (C : Type) := {
  scalar_eq_dec :: EqDecision C;
  scalar_countable :: Countable C;
  czero : C;
  cone : C;
  cimag : C;
  cneg : C → C;
  cadd : C → C → C;
  cmul : C → C → C
}.

(** Gaussian integers: an exact instance used to evaluate examples. *)
Record GaussZ := Gauss { g_re : Z; g_im : Z }.

Global Instance GaussZ_eq_dec : EqDecision GaussZ.
Proof. solve_decision. Defined.

Global Instance GaussZ_countable : Countable GaussZ.
Proof.
  apply (inj_countable' (λ g, (g_re g, g_im g)) (λ p, Gauss p.1 p.2)).
  by intros [].
Defined.

Global Instance GaussZ_scalar : Scalar GaussZ := {|
  czero := Gauss 0 0;
  cone := Gauss 1 0;
  cimag := Gauss 0 1;
  cneg := λ a, Gauss (- g_re a) (- g_im a);
  cadd := λ a b, Gauss (g_re a + g_re b) (g_im a + g_im b);
  cmul := λ a b, Gauss (g_re a * g_re b - g_im a * g_im b)
                       (g_re a * g_im b + g_im a * g_re b)
|}.

(** ** Pauli operators and Pauli strings *)

Inductive Pauli := PauliI | PauliX | PauliY | PauliZ.

Global Instance Pauli_eq_dec : EqDecision Pauli.
Proof. solve_decision. Defined.

Definition Pauli_to_nat (p : Pauli) : nat :=
  match p with PauliI => 0 | PauliX => 1 | PauliY => 2 | PauliZ => 3 end.

Definition Pauli_of_nat (n : nat) : option Pauli :=
  match n with
  | 0 => Some PauliI | 1 => Some PauliX | 2 => Some PauliY | 3 => Some PauliZ
  | _ => None
  end.

Global Instance Pauli_countable : Countable Pauli.
Proof. apply (inj_countable Pauli_to_nat Pauli_of_nat). by intros []. Defined.

(** Modelled from the spec: the class [PauliString] of
    [mitiq/observable/pauli.py], which is not among the sources.  A Pauli
    string assigns a Pauli operator to each qubit index of a finite subset
    and carries a coefficient; two strings are equal when both agree. *)
Record PauliString (C : Type) := MkPauliString {
  coeff : C;
  ops : gmap Z Pauli
}.
Arguments MkPauliString {C} _ _.
Arguments coeff {C} _.
Arguments ops {C} _.

Global Instance PauliString_eq_dec `{Scalar C} : EqDecision (PauliString C).
Proof. solve_decision. Defined.

Global Instance PauliString_countable `{Scalar C} : Countable (PauliString C).
Proof.
  apply (inj_countable' (λ p, (coeff p, ops p)) (λ x, MkPauliString x.1 x.2)).
  by intros [].
Defined.

(** The qubits a Pauli string acts on ([pauli._pauli.qubits]). *)
Definition pauli_qubits {C} (p : PauliString C) : gset Z := dom (ops p).

(** Two single-qubit factors can be measured together when one of them is
    the identity or both are the same operator. *)
Definition factors_agree (a b : Pauli) : bool :=
  bool_decide (a = PauliI) || bool_decide (b = PauliI) || bool_decide (a = b).

(** Modelled from the spec: [PauliString.can_be_measured_with], which is not
    among the sources.  Two strings are compatible when their non-identity
    factors agree on every qubit where both are non-identity. *)
Definition can_be_measured_with {C} (p q : PauliString C) : bool :=
  forallb (λ ka, match ops q !! ka.1 with
                 | Some b => factors_agree ka.2 b
                 | None => true
                 end)
          (map_to_list (ops p)).

(** ** The object store *)

Definition loc := positive.

(** A Python [set] of Pauli strings is kept as the duplicate-free list of its
    elements in table order: the order in which iteration visits them and in
    which [pop] removes them. *)
Inductive Obj (C : Type) :=
  | ObjSet (elems : list (PauliString C))
  | ObjObservable (paulis : loc) (nterms : nat).
Arguments ObjSet {C} _.
Arguments ObjObservable {C} _ _.

Inductive Error :=
  | TypeError
  | KeyError
  | ValueError
  | OutOfFuel
  | ConfigError (value : string).

Inductive Result (A : Type) :=
  | Ok (a : A)
  | Raise (e : Error).
Arguments Ok {A} _.
Arguments Raise {A} _.

(** Methods are computations on the store that return a value and the new
    store, or raise. *)
Definition M (C A : Type) : Type :=
  gmap loc (Obj C) → Result (A * gmap loc (Obj C)).

Definition ret {C A} (a : A) : M C A := λ h, Ok (a, h).

Definition raise {C A} (e : Error) : M C A := λ _, Raise e.

Definition bind {C A B} (m : M C A) (k : A → M C B) : M C B :=
  λ h, match m h with
       | Ok (a, h') => k a h'
       | Raise e => Raise e
       end.

Notation "'let!' x ':=' m 'in' k" := (bind m (λ x, k))
  (at level 10, x name, m at level 100, k at level 200, only parsing).

(** Allocation of a new object. *)
Definition alloc {C} (o : Obj C) : M C loc :=
  λ h, let l := fresh (dom h) in Ok (l, <[l := o]> h).

Definition get_observable {C} (self : loc) : M C (loc * nat) :=
  λ h, match h !! self with
       | Some (ObjObservable ps n) => Ok ((ps, n), h)
       | _ => Raise TypeError
       end.

Definition get_set {C} (s : loc) : M C (list (PauliString C)) :=
  λ h, match h !! s with
       | Some (ObjSet elems) => Ok (elems, h)
       | _ => Raise TypeError
       end.

(** [s.pop()]: removes and returns an element; [KeyError] on the empty set. *)
Definition set_pop {C} (s : loc) : M C (PauliString C) :=
  λ h, match h !! s with
       | Some (ObjSet (x :: elems)) => Ok (x, <[s := ObjSet elems]> h)
       | Some (ObjSet []) => Raise KeyError
       | _ => Raise TypeError
       end.

(** ** Dense matrices ([numpy] arrays with two axes) *)

Section Matrices.
Context `{Scalar C}.

(** [np.zeros(shape=(r, c))] *)
Definition zeros (r c : nat) : list (list C) := replicate r (replicate c czero).

(** [np.kron] of two matrices: entry [(i * p + k, j * q + l)] is
    [A[i][j] * B[k][l]]. *)
Definition kron (A B : list (list C)) : list (list C) :=
  a_row ← A; b_row ← B; [ a ← a_row; b ← b_row; [cmul a b] ].

(** The unitary of a single-qubit Pauli operator. *)
Definition pauli_unitary (p : Pauli) : list (list C) :=
  match p with
  | PauliI => [[cone; czero]; [czero; cone]]
  | PauliX => [[czero; cone]; [cone; czero]]
  | PauliY => [[czero; cneg cimag]; [cimag; czero]]
  | PauliZ => [[cone; czero]; [czero; cneg cone]]
  end.

(** Modelled from the spec: [PauliString.matrix], which is not among the
    sources.  The matrix of a term embedded in a list of qubit indices: the
    coefficient times the tensor product, over the listed qubits in order,
    of the term's factor on that qubit, the identity where the term does not
    act. *)
Definition pauli_matrix (qubit_indices_to_include : list Z)
    (p : PauliString C) : list (list C) :=
  foldl kron [[coeff p]]
    ((λ q, pauli_unitary (default PauliI (ops p !! q)))
       <$> qubit_indices_to_include).

(** One row of the right operand of [+=], stretched to [c] columns the way
    numpy broadcasts. *)
Definition broadcast {A} (c : nat) (l : list A) : option (list A) :=
  if decide (length l = c) then Some l
  else match l with
       | [x] => Some (replicate c x)
       | _ => None
       end.

(** [A += B] on arrays with two axes: [ValueError] when [B] cannot be
    broadcast to the shape of [A]. *)
Definition matrix_iadd (A B : list (list C)) : Result (list (list C)) :=
  match broadcast (length A) B with
  | None => Raise ValueError
  | Some B' =>
      match mapM (λ ab, zip_with cadd ab.1 <$> broadcast (length ab.1) ab.2)
                 (zip A B') with
      | None => Raise ValueError
      | Some rows => Ok rows
      end
  end.

End Matrices.

Section Observable.
Context `{Scalar C}.

(** The table order of the set that [set(...)] builds from a sequence of
    elements.  Python leaves it unspecified (it depends on the hashes, which
    differ from one run to another); within one run it is a function of
    the sequence.  The properties assume of it that it lists the distinct
    elements of the sequence, each once. *)
Variable set_layout : list (PauliString C) → list (PauliString C).

(** [set(paulis)] *)
Definition new_set (paulis : list (PauliString C)) : M C loc :=
  alloc (ObjSet (set_layout paulis)).

(** [copy.deepcopy(s)] for a set: the elements are copied and a new set is
    built from them, taken in the iteration order of [s]. *)
Definition deepcopy_set (s : loc) : M C loc :=
  let! elems := get_set s in
  new_set elems.

(** [Observable.__init__] *)
Definition Observable_init (paulis : list (PauliString C)) : M C loc :=
  let! ps := new_set paulis in
  let! elems := get_set ps in
  alloc (ObjObservable ps (length elems)).

(** [Observable.nterms] *)
Definition nterms (self : loc) : M C nat :=
  let! o := get_observable self in
  ret o.2.

(** [Observable._qubits] *)
Definition _qubits (self : loc) : M C (gset Z) :=
  let! o := get_observable self in
  let! elems := get_set o.1 in
  ret (⋃ (pauli_qubits <$> elems)).

(** [Observable.qubit_indices]: the qubits, sorted, as indices. *)
Definition qubit_indices (self : loc) : M C (list Z) :=
  let! qs := _qubits self in
  ret (merge_sort Z.le (elements qs)).

(** [Observable.nqubits] *)
Definition nqubits (self : loc) : M C nat :=
  let! idx := qubit_indices self in
  ret (length idx).

(** The [for (i, plist) in enumerate(plists)] loop of [partition]:
    [rest] is what remains to be enumerated, [i] the current index.  The
    result carries the flag [added]. *)
Fixpoint partition_for (pauli : PauliString C)
    (plists : list (list (PauliString C))) (i : nat)
    (rest : list (list (PauliString C)))
    : list (list (PauliString C)) * bool :=
  match rest with
  | [] => (plists, false)
  | plist :: rest' =>
      if forallb (can_be_measured_with pauli) plist
      then (alter (λ l, l ++ [pauli]) i plists, true)
      else partition_for pauli plists (S i) rest'
  end.

(** One turn of the [while paulis] loop, after the [pop]. *)
Definition partition_body (plists : list (list (PauliString C)))
    (pauli : PauliString C) : list (list (PauliString C)) :=
  let '(plists', added) := partition_for pauli plists 0 plists in
  if negb added then plists' ++ [[pauli]] else plists'.

(** The [while paulis] loop.  [fuel] bounds the number of turns; the loop of
    the source needs no bound, and [partition_while_run] shows that the size
    of the set is enough. *)
Fixpoint partition_while (fuel : nat) (paulis : loc)
    (plists : list (list (PauliString C)))
    : M C (list (list (PauliString C))) :=
  let! elems := get_set paulis in
  match elems with
  | [] => ret plists
  | _ :: _ =>
      match fuel with
      | 0 => raise OutOfFuel
      | S fuel' =>
          let! pauli := set_pop paulis in
          partition_while fuel' paulis (partition_body plists pauli)
      end
  end.

(** [set([frozenset(plist) for plist in plists])] *)
Definition frozensets (plists : list (list (PauliString C)))
    : gset (gset (PauliString C)) :=
  list_to_set ((λ plist, list_to_set plist) <$> plists).

(** [Observable.partition].  The working copy is measured once, to bound the
    loop. *)
Definition partition (self : loc) : M C (gset (gset (PauliString C))) :=
  let! o := get_observable self in
  let! paulis := deepcopy_set o.1 in
  let! elems := get_set paulis in
  let! plists := partition_while (length elems) paulis [] in
  ret (frozensets plists).

(** The [for pauli in self._paulis] loop of [matrix]. *)
Fixpoint matrix_for (qubit_indices : list Z) (matrix : list (list C))
    (paulis : list (PauliString C)) : Result (list (list C)) :=
  match paulis with
  | [] => Ok matrix
  | pauli :: paulis' =>
      match matrix_iadd matrix (pauli_matrix qubit_indices pauli) with
      | Ok matrix' => matrix_for qubit_indices matrix' paulis'
      | Raise e => Raise e
      end
  end.

(** [Observable.matrix].  [C] is the [dtype]; the terms' matrices are
    already of it, so that [astype] has nothing to convert. *)
Definition matrix (self : loc) : M C (list (list C)) :=
  let! qubit_indices := qubit_indices self in
  let! n := nqubits self in
  let! o := get_observable self in
  let! paulis := get_set o.1 in
  match matrix_for qubit_indices (zeros (2 ^ n) (2 ^ n)) paulis with
  | Ok matrix => ret matrix
  | Raise e => raise e
  end.

End Observable.

(** ** First-fit grouping, in the words of the specification

    Starting from an empty list of groups, each term in turn is placed into
    the first existing group in which it is compatible with every member; if
    there is none, it starts a new group of its own. *)

Section FirstFit.
Context `{Scalar C}.

Definition fits (t : PauliString C) (group : list (PauliString C)) : bool :=
  forallb (λ member, can_be_measured_with t member) group.

Fixpoint first_fit_place (t : PauliString C)
    (groups : list (list (PauliString C))) : list (list (PauliString C)) :=
  match groups with
  | [] => [[t]]
  | g :: groups' =>
      if fits t g then (g ++ [t]) :: groups'
      else g :: first_fit_place t groups'
  end.

Definition first_fit (terms : list (PauliString C))
    : list (list (PauliString C)) :=
  foldl (λ groups t, first_fit_place t groups) [] terms.

End FirstFit.

(** ** Well-formed stores *)

(** [self] is an [Observable] whose term set holds [terms], in table order. *)
Definition is_observable `{Scalar C} (h : gmap loc (Obj C)) (self : loc)
    (terms : list (PauliString C)) : Prop :=
  ∃ ps, h !! self = Some (ObjObservable ps (length terms))
        ∧ h !! ps = Some (ObjSet terms)
        ∧ NoDup terms.

(** Every object of [h] is still there, unchanged, in [h']. *)
Definition preserved {C} (h h' : gmap loc (Obj C)) : Prop :=
  ∀ l o, h !! l = Some o → h' !! l = Some o.

(** ** Notions used by the properties *)

Section Notions.
Context `{Scalar C}.

(** Any two members of a group can be measured together. *)
Definition pairwise_compatible (g : list (PauliString C)) : Prop :=
  ∀ p q : PauliString C, p ∈ g → q ∈ g → can_be_measured_with p q = true.

(** [A] has [r] rows of [c] entries each. *)
Definition has_shape (r c : nat) (A : list (list C)) : Prop :=
  length A = r ∧ Forall (λ row, length row = c) A.

(** The sum of two matrices of one shape, entry by entry. *)
Definition matrix_add (A B : list (list C)) : list (list C) :=
  zip_with (zip_with cadd) A B.

(** The sum of a list of [r] by [c] matrices. *)
Definition matrix_sum (r c : nat) (As : list (list (list C))) : list (list C) :=
  foldl matrix_add (zeros r c) As.

(** The entry in row [i] and column [j]. *)
Definition entry (A : list (list C)) (i j : nat) : option C :=
  A !! i ≫= (.!! j).

(** The sorted list of the qubits of a list of terms. *)
Definition sorted_qubits (terms : list (PauliString C)) : list Z :=
  merge_sort Z.le (elements (⋃ (pauli_qubits <$> terms))).

End Notions.

(** ** Clifford training data

    Angles, fractions and weights are rational numbers: the arithmetic is
    that of the specification, exact, without the rounding of floats. *)

(** [a < b], as a boolean. *)
Definition Qlt_bool (a b : Q) : bool := negb (Qle_bool b a).

(** [round(x)]: to the nearest integer, halves to the even one, as Python
    rounds. *)
Definition py_round (x : Q) : Z :=
  let fl := Qfloor x in
  let r := (x - inject_Z fl)%Q in
  if Qlt_bool r (1 # 2) then fl
  else if Qlt_bool (1 # 2) r then (fl + 1)%Z
  else if Z.even fl then fl else (fl + 1)%Z.

(** A [numpy] random state: the stream of raw numbers it is going to
    produce and how many of them were consumed. *)
Record RandomState := MkRandomState { rs_raw : nat → N; rs_pos : nat }.

(** Gates and circuits: a circuit is a sequence of gate operations over
    qubits; [Rz θ] is the rotation about the Z axis by the angle [θ]. *)
Inductive Gate :=
  | Rz (θ : Q)
  | OtherGate (name : string).

Record Operation := MkOperation { op_gate : Gate; op_qubits : list Z }.

(** The state of a run: the random state and the circuit objects. *)
Record CdrState := MkCdrState {
  rng : RandomState;
  circuits : gmap loc (list Operation)
}.

(** Computations that may raise; what was done before the exception stays
    done. *)
Definition G (A : Type) : Type := CdrState → Result A * CdrState.

Definition gret {A} (a : A) : G A := λ s, (Ok a, s).

Definition graise {A} (e : Error) : G A := λ s, (Raise e, s).

Definition gbind {A B} (m : G A) (k : A → G B) : G B :=
  λ s, match m s with
       | (Ok a, s') => k a s'
       | (Raise e, s') => (Raise e, s')
       end.

Notation "'let*' x ':=' m 'in' k" := (gbind m (λ x, k))
  (at level 10, x name, m at level 100, k at level 200, only parsing).

Fixpoint gmapM {A B} (f : A → G B) (l : list A) : G (list B) :=
  match l with
  | [] => gret []
  | x :: l' =>
      let* y := f x in
      let* ys := gmapM f l' in
      gret (y :: ys)
  end.

(** The next raw number of the random state. *)
Definition random_raw : G N :=
  λ s, (Ok (rs_raw (rng s) (rs_pos (rng s))),
        MkCdrState (MkRandomState (rs_raw (rng s)) (S (rs_pos (rng s))))
                   (circuits s)).

(** A number in [[0, 1)]. *)
Definition random_uniform : G Q :=
  let* r := random_raw in
  gret (Qmake (Z.of_N (r mod 2 ^ 53)) (2 ^ 53)).

(** An index below [n]. *)
Definition random_below (n : nat) : G nat :=
  let* r := random_raw in
  gret (N.to_nat r mod n).

(** The item at which the running sum of the weights passes [x]; the last
    item when it never does. *)
Fixpoint weighted_pick {A} (d : A) (items : list (A * Q)) (x : Q) : A :=
  match items with
  | [] => d
  | (a, w) :: rest =>
      match rest with
      | [] => a
      | _ :: _ => if Qlt_bool x w then a else weighted_pick d rest (x - w)
      end
  end.

Definition sum_weights {A} (items : list (A * Q)) : Q :=
  foldr (λ aw acc, (aw.2 + acc)%Q) 0%Q items.

(** One draw among weighted items. *)
Definition random_choice {A} (d : A) (items : list (A * Q)) : G A :=
  let* u := random_uniform in
  gret (weighted_pick d items (u * sum_weights items)%Q).

(** [random_state.choice(..., size=k, replace=False, p=...)]: [k] distinct
    indices; [ValueError] when there are fewer than [k] to draw from. *)
Fixpoint choice_without_replacement (k : nat) (items : list (nat * Q))
    : G (list nat) :=
  match k with
  | 0 => gret []
  | S k' =>
      match items with
      | [] => graise ValueError
      | (i0, _) :: _ =>
          let* i := random_choice i0 items in
          let* rest :=
            choice_without_replacement k' (filter (λ iw, iw.1 ≠ i) items) in
          gret (i :: rest)
      end
  end.

Definition alloc_circuit (c : list Operation) : G loc :=
  λ s, let l := fresh (dom (circuits s)) in
       (Ok l, MkCdrState (rng s) (<[l := c]> (circuits s))).

Definition get_circuit (l : loc) : G (list Operation) :=
  λ s, match circuits s !! l with
       | Some c => (Ok c, s)
       | None => (Raise TypeError, s)
       end.

(** The computation leaves every circuit object that exists as it is,
    whether it returns or raises. *)
Definition keeps_circuits {A} (m : G A) : Prop :=
  ∀ s l c, circuits s !! l = Some c → circuits (m s).2 !! l = Some c.

(** Two states of a run that differ at most in how the same stream of raw
    random numbers is presented. *)
Definition same_state (s1 s2 : CdrState) : Prop :=
  (∀ i, rs_raw (rng s1) i = rs_raw (rng s2) i)
  ∧ rs_pos (rng s1) = rs_pos (rng s2)
  ∧ circuits s1 = circuits s2.

(** The computation is deterministic: from such states it gives the same
    outcome and leaves such states. *)
Definition deterministic {A} (m : G A) : Prop :=
  ∀ s1 s2, same_state s1 s2 →
    (m s1).1 = (m s2).1 ∧ same_state (m s1).2 (m s2).2.

Section CDR.

(** [np.pi], the tolerance of the classification of angles, and the Gaussian
    kernel: the weight of a distance for a spread [sigma]. *)
Variable pi : Q.
Variable tol : Q.
Variable kernel : Q → Q → Q.

(** [CLIFFORD_ANGLES] of the test module. *)
Definition CLIFFORD_ANGLES : list Q := [0; pi / 2; pi; (3 # 2) * pi]%Q.

(** The [m]-th canonical angle. *)
Definition clifford_angle (m : nat) : Q := nth m CLIFFORD_ANGLES 0%Q.

(** [θ mod 2π]: the remainder in [[0, 2π)]. *)
Definition mod_2pi (θ : Q) : Q :=
  (θ - inject_Z (Qfloor (θ / (2 * pi))) * (2 * pi))%Q.

(** Modelled from the spec: [_is_clifford_angle], which is not among the
    sources.  True iff [θ mod 2π] lies within the tolerance of one of the four
    canonical angles. *)
Definition _is_clifford_angle (θ : Q) : bool :=
  existsb (λ c, Qlt_bool (Qabs (mod_2pi θ - c)) tol) CLIFFORD_ANGLES.

(** The absolute circular distance between two angles. *)
Definition circular_distance (a b : Q) : Q :=
  let d := mod_2pi (a - b) in
  if Qle_bool d (2 * pi - d) then d else (2 * pi - d)%Q.

(** The first of the candidates at the least distance from [θ], starting
    from [best]: a later candidate wins only when it is strictly nearer. *)
Fixpoint nearest (θ best : Q) (candidates : list Q) : Q :=
  match candidates with
  | [] => best
  | c :: candidates' =>
      if Qlt_bool (circular_distance θ c) (circular_distance θ best)
      then nearest θ c candidates'
      else nearest θ best candidates'
  end.

(** Modelled from the spec: [_closest_clifford], which is not among the
    sources.  The nearest canonical angle by absolute circular distance, ties
    broken by the order of the angles. *)
Definition _closest_clifford (θ : Q) : Q :=
  match CLIFFORD_ANGLES with
  | [] => 0%Q
  | c :: cs => nearest θ c cs
  end.

(** Modelled from the spec: [_random_clifford], which is not among the
    sources.  One of the four canonical angles, picked uniformly. *)
Definition _random_clifford (θ : Q) : G Q :=
  let* i := random_below (length CLIFFORD_ANGLES) in
  gret (nth i CLIFFORD_ANGLES 0%Q).

(** Modelled from the spec: [_probabilistic_angle_to_clifford], which is not
    among the sources.  A canonical angle sampled with probability
    proportional to the kernel of its distance from [θ]. *)
Definition _probabilistic_angle_to_clifford (θ sigma : Q) : G Q :=
  random_choice 0%Q
    ((λ c, (c, kernel (circular_distance θ c) sigma)) <$> CLIFFORD_ANGLES).

(** Modelled from the spec: [_replace], which is not among the sources.
    Every angle is replaced by a canonical angle, chosen by the policy
    [method_replace]; an unrecognised policy is an error that names it. *)
Definition _replace (angles : list Q) (method_replace : string)
    (sigma_select sigma_replace : Q) : G (list Q) :=
  if decide (method_replace = "closest") then
    gret (_closest_clifford <$> angles)
  else if decide (method_replace = "random") then
    gmapM _random_clifford angles
  else if decide (method_replace = "probabilistic") then
    gmapM (λ θ, _probabilistic_angle_to_clifford θ sigma_replace) angles
  else graise (ConfigError method_replace).

(** Modelled from the spec: [_select], which is not among the sources.  The
    indices of the angles to replace, drawn without replacement; as many as
    [total_non_clifford - round(fraction_non_clifford * total_non_clifford)];
    an unrecognised policy is an error that names it. *)
Definition _select (rz_non_cliff : list Q) (fraction_non_clifford : Q)
    (method_select : string) (sigma_select : Q) : G (list nat) :=
  let total := length rz_non_cliff in
  let k := (Z.of_nat total
            - py_round (fraction_non_clifford
                        * inject_Z (Z.of_nat total)))%Z in
  if decide (method_select = "random") then
    if decide (0 ≤ k)%Z then
      choice_without_replacement (Z.to_nat k)
        ((λ i, (i, 1%Q)) <$> seq 0 total)
    else graise ValueError
  else if decide (method_select = "probabilistic") then
    if decide (0 ≤ k)%Z then
      choice_without_replacement (Z.to_nat k)
        (imap (λ i θ, (i, kernel (circular_distance θ (_closest_clifford θ))
                                 sigma_select)) rz_non_cliff)
    else graise ValueError
  else graise (ConfigError method_select).

(** A rotation about Z by an angle that is not Clifford. *)
Definition non_clifford_angle (op : Operation) : option Q :=
  match op_gate op with
  | Rz θ => if _is_clifford_angle θ then None else Some θ
  | OtherGate _ => None
  end.

(** Modelled from the spec: [count_non_cliffords], which is not among the
    sources. *)
Definition count_non_cliffords (circuit : list Operation) : nat :=
  length (omap non_clifford_angle circuit).


(** The circuit with its non-Clifford rotations renewed: the [j]-th of them
    (counting from [j] at the head) gets the angle that [replacement] holds
    for it, and stays as it is when there is none. *)
Fixpoint with_replaced_angles (replacement : gmap nat Q) (j : nat)
    (circuit : list Operation) : list Operation :=
  match circuit with
  | [] => []
  | op :: circuit' =>
      match non_clifford_angle op with
      | Some _ =>
          match replacement !! j with
          | Some θ' => MkOperation (Rz θ') (op_qubits op)
          | None => op
          end :: with_replaced_angles replacement (S j) circuit'
      | None => op :: with_replaced_angles replacement j circuit'
      end
  end.

(** Modelled from the spec: [_map_to_near_clifford], which is not among the
    sources.  Selects which non-Clifford rotations to change, replaces their
    angles and builds the new circuit. *)
Definition _map_to_near_clifford (circuit : list Operation)
    (fraction_non_clifford : Q) (method_select method_replace : string)
    (sigma_select sigma_replace : Q) : G (list Operation) :=
  let rz_non_cliff := omap non_clifford_angle circuit in
  let* columns_to_change :=
    _select rz_non_cliff fraction_non_clifford method_select sigma_select in
  let rz_non_cliff_selected :=
    omap (λ col, rz_non_cliff !! col) columns_to_change in
  let* replaced :=
    _replace rz_non_cliff_selected method_replace sigma_select sigma_replace in
  gret (with_replaced_angles
          (list_to_map (zip columns_to_change replaced)) 0 circuit).

(** The loop of [generate_training_circuits]: [n] new circuit objects. *)
Fixpoint training_circuits_loop (n : nat) (circuit : list Operation)
    (fraction_non_clifford : Q) (method_select method_replace : string)
    (sigma_select sigma_replace : Q) : G (list loc) :=
  match n with
  | 0 => gret []
  | S n' =>
      let* near := _map_to_near_clifford circuit fraction_non_clifford
                     method_select method_replace sigma_select sigma_replace in
      let* l := alloc_circuit near in
      let* ls := training_circuits_loop n' circuit fraction_non_clifford
                   method_select method_replace sigma_select sigma_replace in
      gret (l :: ls)
  end.

(** Modelled from the spec: [generate_training_circuits], which is not among
    the sources.  [num_training_circuits] variants of the circuit object
    [circuit]. *)
Definition generate_training_circuits (circuit : loc)
    (num_training_circuits : nat) (fraction_non_clifford : Q)
    (method_select method_replace : string)
    (sigma_select sigma_replace : Q) : G (list loc) :=
  let* c := get_circuit circuit in
  training_circuits_loop num_training_circuits c fraction_non_clifford
    method_select method_replace sigma_select sigma_replace.

End CDR.


(** ** Concrete inputs, used to evaluate the model *)

(** Three terms on two qubits, and a store with one Observable, at location
    2, whose term set is at location 1. *)
Definition term_X0 : PauliString GaussZ :=
  MkPauliString (Gauss 1 0) {[ 0%Z := PauliX ]}.
Definition term_X1 : PauliString GaussZ :=
  MkPauliString (Gauss 1 0) {[ 1%Z := PauliX ]}.
Definition term_Z0 : PauliString GaussZ :=
  MkPauliString (Gauss 1 0) {[ 0%Z := PauliZ ]}.

Definition example_terms : list (PauliString GaussZ) :=
  [term_X0; term_X1; term_Z0].
Definition example_store : gmap loc (Obj GaussZ) :=
  {[ 1%positive := ObjSet example_terms;
     2%positive := ObjObservable 1%positive 3 ]}.

(** Another store, with an Observable at location 5 whose term set, at
    location 3, iterates in the same order. *)
Definition example_store_elsewhere : gmap loc (Obj GaussZ) :=
  {[ 3%positive := ObjSet example_terms;
     5%positive := ObjObservable 3%positive 3 ]}.

(** The matrix of the Observable [Z ⊗ I + I ⊗ X] on two qubits. *)
Definition term_ZI : PauliString GaussZ :=
  MkPauliString (Gauss 1 0) {[ 0%Z := PauliZ ]}.
Definition term_IX : PauliString GaussZ :=
  MkPauliString (Gauss 1 0) {[ 1%Z := PauliX ]}.

(** Two iteration orders of sets: the order of first occurrence, and that
    order with its first element moved to the end. *)
Definition rotated_layout {A} `{EqDecision A} (l : list A) : list A :=
  match remove_dups l with
  | [] => []
  | x :: l' => l' ++ [x]
  end.

(** What a computation on the empty store returns. *)
Definition returned {C A} (m : M C A) : option A :=
  match m ∅ with
  | Ok (a, _) => Some a
  | Raise _ => None
  end.

(** A run of the training-circuit generator: [np.pi] as a fraction, a
    tolerance, a kernel and a circuit with two rotations that are not
    Clifford. *)
Definition example_pi : Q := (355 # 113)%Q.
Definition example_tol : Q := (1 # 100000)%Q.
Definition example_kernel (d sigma : Q) : Q :=
  (1 / (1 + d * d / (sigma * sigma)))%Q.
Definition example_circuit : list Operation :=
  [MkOperation (Rz (1 # 3)) [0%Z];
   MkOperation (OtherGate "cx") [0%Z; 1%Z];
   MkOperation (Rz example_pi) [1%Z];
   MkOperation (Rz (7 # 5)) [1%Z]].
Definition example_state : CdrState :=
  MkCdrState (MkRandomState (λ i, N.of_nat (7 * i + 3)) 0)
             {[ 1%positive := example_circuit ]}.

(** The same stream of random numbers, presented by another function. *)
Definition example_state' : CdrState :=
  MkCdrState (MkRandomState (λ i, N.of_nat (3 + i * 7)) 0)
             {[ 1%positive := example_circuit ]}.


(** ** Groups that cannot be merged *)

Section Separation.
Context `{Scalar C}.

(** Some member of one group cannot be measured with some member of the
    other. *)
Definition separated (g1 g2 : list (PauliString C)) : Prop :=
  ∃ p q, p ∈ g1 ∧ q ∈ g2 ∧ can_be_measured_with p q = false.

(** Any two groups of the list are separated. *)
Inductive all_separated : list (list (PauliString C)) → Prop :=
  | all_separated_nil : all_separated []
  | all_separated_cons g groups :
      Forall (separated g) groups → all_separated groups →
      all_separated (g :: groups).

End Separation.

(** ** More concrete stores *)

(** The Observable of [example_store] with its terms in another iteration
    order, one whose terms can all be measured together, and one whose terms
    cannot. *)
Definition example_store_rotated : gmap loc (Obj GaussZ) :=
  {[ 1%positive := ObjSet [term_Z0; term_X0; term_X1];
     2%positive := ObjObservable 1%positive 3 ]}.
Definition example_store_compatible : gmap loc (Obj GaussZ) :=
  {[ 1%positive := ObjSet [term_X0; term_X1];
     2%positive := ObjObservable 1%positive 2 ]}.
Definition example_store_incompatible : gmap loc (Obj GaussZ) :=
  {[ 1%positive := ObjSet [term_X0; term_Z0];
     2%positive := ObjObservable 1%positive 2 ]}.

(** ** [qiskit_circuit_transpilation] of the test module *)

(** What a call does: it returns a value or raises. *)
Inductive Raised := IndexError.

Inductive Outcome (A : Type) :=
  | Returns (a : A)
  | Raises (e : Raised).
Arguments Returns {A} _.
Arguments Raises {A} _.

Definition outcome_bind {A B} (m : Outcome A) (k : A → Outcome B) : Outcome B :=
  match m with
  | Returns a => k a
  | Raises e => Raises e
  end.

Notation "'let?' x ':=' m 'in' k" := (outcome_bind m (λ x, k))
  (at level 10, x name, m at level 100, k at level 200, only parsing).

(** [l[i]] *)
Definition item {A} (l : list A) (i : nat) : Outcome A :=
  match l !! i with
  | Some x => Returns x
  | None => Raises IndexError
  end.

(** An entry of [circ.data]: the name and the parameters of the gate, and the
    [index] of each of its qubits and of its classical bits. *)
Record Instruction := MkInstruction {
  gate_name : string;
  gate_params : list Q;
  instr_qubits : list nat;
  instr_clbits : list nat
}.

(** A [QuantumCircuit]: the numbers of its qubits and classical bits, and its
    [data]. *)
Record QuantumCircuit := MkQuantumCircuit {
  qc_qubits : nat;
  qc_clbits : nat;
  qc_data : list Instruction
}.

(** What the methods [cx], [rz], [rx], [x] and [measure] of a circuit append
    to its [data].  The checks these methods make on their arguments are
    outside the model. *)
Definition instr_cx (control target : nat) : Instruction :=
  MkInstruction "cx" [] [control; target] [].
Definition instr_rz (θ : Q) (qubit : nat) : Instruction :=
  MkInstruction "rz" [θ] [qubit] [].
Definition instr_rx (θ : Q) (qubit : nat) : Instruction :=
  MkInstruction "rx" [θ] [qubit] [].
Definition instr_x (qubit : nat) : Instruction :=
  MkInstruction "x" [] [qubit] [].
Definition instr_measure (qubit cbit : nat) : Instruction :=
  MkInstruction "measure" [] [qubit] [cbit].

Section Transpilation.

(** [np.pi], and [compiler.transpile] with the basis gates and the
    optimisation level of the source, which is a library's. *)
Variable pi : Q.
Variable transpile : QuantumCircuit → QuantumCircuit.

(** The body of the [for] loop: [instr] is [circ.data[i]], [circ_new] the
    [data] of the circuit under construction.  The angle of an [rz] is
    reduced exactly; how the float remainder is rounded is outside the
    model, which only relies on whether the remainder is zero. *)
Definition transpilation_body (instr : Instruction)
    (circ_new : list Instruction) : Outcome (list Instruction) :=
  let name := gate_name instr in
  let? circ_new :=
    if decide (name = "cx") then
      let? control := item (instr_qubits instr) 0 in
      let? target := item (instr_qubits instr) 1 in
      Returns (circ_new ++ [instr_cx control target])
    else Returns circ_new in
  let? circ_new :=
    if decide (name = "rz") then
      let? param := item (gate_params instr) 0 in
      let parameters := mod_2pi pi param in
      if negb (Qeq_bool parameters 0) then
        let? qubit := item (instr_qubits instr) 0 in
        Returns (circ_new ++ [instr_rz parameters qubit])
      else Returns circ_new
    else Returns circ_new in
  let? circ_new :=
    if decide (name = "sx") then
      let? qubit := item (instr_qubits instr) 0 in
      Returns (circ_new ++ [instr_rx (pi / 2) qubit])
    else Returns circ_new in
  if decide (name = "x") then
    let? qubit := item (instr_qubits instr) 0 in
    Returns (circ_new ++ [instr_x qubit])
  else if decide (name = "measure") then
    let? qubit := item (instr_qubits instr) 0 in
    let? cbit := item (instr_clbits instr) 0 in
    Returns (circ_new ++ [instr_measure qubit cbit])
  else Returns circ_new.

(** The loop [for i in range(len(circ.data))], over the indices that are
    left. *)
Fixpoint transpilation_loop (data : list Instruction) (indices : list nat)
    (circ_new : list Instruction) : Outcome (list Instruction) :=
  match indices with
  | [] => Returns circ_new
  | i :: indices' =>
      let? instr := item data i in
      let? circ_new := transpilation_body instr circ_new in
      transpilation_loop data indices' circ_new
  end.

(** [qiskit_circuit_transpilation] *)
Definition qiskit_circuit_transpilation (circ : QuantumCircuit)
    : Outcome QuantumCircuit :=
  let circ := transpile circ in
  let? data :=
    transpilation_loop (qc_data circ) (seq 0 (length (qc_data circ))) [] in
  Returns (MkQuantumCircuit (qc_qubits circ) (qc_clbits circ) data).

(** What one instruction of the transpiled circuit becomes: a [cx], an [x]
    and a [measure] are kept, an [sx] becomes a rotation about X by [π / 2],
    an [rz] keeps its angle reduced modulo [2π] and is left out when that is
    zero, and anything else is left out. *)
Definition decomposed (instr : Instruction) : Outcome (option Instruction) :=
  let name := gate_name instr in
  if decide (name = "cx") then
    let? control := item (instr_qubits instr) 0 in
    let? target := item (instr_qubits instr) 1 in
    Returns (Some (instr_cx control target))
  else if decide (name = "rz") then
    let? param := item (gate_params instr) 0 in
    if Qeq_bool (mod_2pi pi param) 0 then Returns None
    else
      let? qubit := item (instr_qubits instr) 0 in
      Returns (Some (instr_rz (mod_2pi pi param) qubit))
  else if decide (name = "sx") then
    let? qubit := item (instr_qubits instr) 0 in
    Returns (Some (instr_rx (pi / 2) qubit))
  else if decide (name = "x") then
    let? qubit := item (instr_qubits instr) 0 in
    Returns (Some (instr_x qubit))
  else if decide (name = "measure") then
    let? qubit := item (instr_qubits instr) 0 in
    let? cbit := item (instr_clbits instr) 0 in
    Returns (Some (instr_measure qubit cbit))
  else Returns None.

(** The instructions of a circuit decomposed one after the other, up to the
    first that raises. *)
Fixpoint decomposed_all (data : list Instruction)
    : Outcome (list Instruction) :=
  match data with
  | [] => Returns []
  | instr :: data' =>
      let? o := decomposed instr in
      let? os := decomposed_all data' in
      Returns (option_list o ++ os)
  end.

(** The instruction has the operands its gate needs. *)
Definition has_operands (instr : Instruction) : Prop :=
  (gate_name instr = "cx" → 2 ≤ length (instr_qubits instr))
  ∧ (gate_name instr = "rz" →
       1 ≤ length (gate_params instr) ∧ 1 ≤ length (instr_qubits instr))
  ∧ (gate_name instr = "sx" → 1 ≤ length (instr_qubits instr))
  ∧ (gate_name instr = "x" → 1 ≤ length (instr_qubits instr))
  ∧ (gate_name instr = "measure" →
       1 ≤ length (instr_qubits instr) ∧ 1 ≤ length (instr_clbits instr)).

(** The instruction is one that the loop translates: a [cx], an [sx], an [x]
    or a [measure], or an [rz] whose angle is not a multiple of [2π]. *)
Definition is_kept (instr : Instruction) : bool :=
  bool_decide (gate_name instr ∈ ["cx"; "sx"; "x"; "measure"])
  || (bool_decide (gate_name instr = "rz")
      && match gate_params instr !! 0 with
         | Some param => negb (Qeq_bool (mod_2pi pi param) 0)
         | None => false
         end).

(** The gate set of the result: [cx], [rz] by an angle that is not zero,
    [rx] by [π / 2], [x] and [measure]. *)
Definition in_gate_set (o : Instruction) : Prop :=
  (∃ control target, o = instr_cx control target)
  ∨ (∃ θ qubit, o = instr_rz θ qubit ∧ ¬ (θ == 0)%Q)
  ∨ (∃ qubit, o = instr_rx (pi / 2) qubit)
  ∨ (∃ qubit, o = instr_x qubit)
  ∨ (∃ qubit cbit, o = instr_measure qubit cbit).

End Transpilation.

(** A circuit on two qubits in the basis gates, with a barrier. *)
Definition example_qiskit_circuit : QuantumCircuit :=
  MkQuantumCircuit 2 2
    [MkInstruction "rz" [(7 # 1)%Q] [0] [];
     MkInstruction "sx" [] [0] [];
     MkInstruction "rz" [0%Q] [1] [];
     MkInstruction "cx" [] [0; 1] [];
     MkInstruction "barrier" [] [0; 1] [];
     MkInstruction "x" [] [1] [];
     MkInstruction "measure" [] [0] [0];
     MkInstruction "measure" [] [1] [1]].

(** What the loop makes of it. *)
Definition example_transpiled_circuit : QuantumCircuit :=
  MkQuantumCircuit 2 2
    [instr_rz (mod_2pi example_pi (7 # 1)%Q) 0;
     instr_rx (example_pi / 2)%Q 0;
     instr_cx 0 1;
     instr_x 1;
     instr_measure 0 0;
     instr_measure 1 1].
(** * Properties *)

(** ** Compatibility of Pauli strings *)

Section Compatibility.
Context {C : Type}.
Implicit Types p q : PauliString C.

Lemma factors_agree_sym a b : factors_agree a b = factors_agree b a.
Proof. by destruct a, b. Qed.

Lemma factors_agree_refl a : factors_agree a a = true.
Proof. by destruct a. Qed.

Lemma can_be_measured_with_spec p q :
  can_be_measured_with p q = true ↔
  ∀ k a b, ops p !! k = Some a → ops q !! k = Some b →
           factors_agree a b = true.
Proof.
  unfold can_be_measured_with. rewrite forallb_forall. split.
  - intros Hall k a b Ha Hb.
    specialize (Hall (k, a)). simpl in Hall. rewrite Hb in Hall.
    apply Hall, list_elem_of_In. by apply elem_of_map_to_list.
  - intros Hall [k a] Hin. simpl.
    apply list_elem_of_In, elem_of_map_to_list in Hin.
    destruct (ops q !! k) as [b|] eqn:Hb; [|done]. eauto.
Qed.

Lemma can_be_measured_with_sym p q :
  can_be_measured_with p q = true → can_be_measured_with q p = true.
Proof.
  rewrite !can_be_measured_with_spec. intros Hpq k a b Ha Hb.
  rewrite factors_agree_sym. eauto.
Qed.

Lemma can_be_measured_with_refl p : can_be_measured_with p p = true.
Proof.
  apply can_be_measured_with_spec. intros k a b Ha Hb.
  assert (a = b) as -> by congruence. apply factors_agree_refl.
Qed.

End Compatibility.

(** ** The loops of [partition] against first-fit placement *)

Section Refinement.
Context `{Scalar C}.
Implicit Types (t pauli : PauliString C) (plists : list (list (PauliString C))).

Lemma partition_for_first_fit pauli pre rest :
  (let '(plists', added) :=
     partition_for pauli (pre ++ rest) (length pre) rest in
   if negb added then plists' ++ [[pauli]] else plists')
  = pre ++ first_fit_place pauli rest.
Proof.
  revert pre. induction rest as [|plist rest IH]; intros pre; simpl.
  - by rewrite app_nil_r.
  - unfold fits. destruct (forallb _ plist); simpl.
    + replace (length pre) with (length pre + 0) by lia.
      by rewrite alter_app_r.
    + specialize (IH (pre ++ [plist])).
      rewrite <-app_assoc, length_app, Nat.add_1_r in IH. simpl in IH.
      by rewrite IH, <-app_assoc.
Qed.

Lemma partition_body_first_fit plists pauli :
  partition_body plists pauli = first_fit_place pauli plists.
Proof. apply (partition_for_first_fit pauli []). Qed.

Lemma foldl_partition_body plists terms :
  foldl partition_body plists terms
  = foldl (λ groups t, first_fit_place t groups) plists terms.
Proof.
  revert plists. induction terms as [|t terms IH]; intros plists; simpl; [done|].
  by rewrite partition_body_first_fit, IH.
Qed.

End Refinement.

(** ** Invariants of first-fit placement *)

Section FirstFitInvariants.
Context `{Scalar C}.
Implicit Types (t p q : PauliString C) (g : list (PauliString C))
               (groups : list (list (PauliString C))).


Lemma pairwise_compatible_snoc g t :
  pairwise_compatible g → fits t g = true → pairwise_compatible (g ++ [t]).
Proof.
  intros Hg Hfit p q Hp Hq. unfold fits in Hfit.
  rewrite forallb_forall in Hfit.
  apply elem_of_app in Hp as [Hp|Hp%list_elem_of_singleton];
    apply elem_of_app in Hq as [Hq|Hq%list_elem_of_singleton]; subst.
  - by apply Hg.
  - apply can_be_measured_with_sym, Hfit. by apply list_elem_of_In.
  - apply Hfit. by apply list_elem_of_In.
  - apply can_be_measured_with_refl.
Qed.

Lemma first_fit_place_compatible t groups :
  Forall pairwise_compatible groups →
  Forall pairwise_compatible (first_fit_place t groups).
Proof.
  induction 1 as [|g groups Hg Hgroups IH]; simpl.
  - constructor; [|done]. intros p q ->%list_elem_of_singleton ->%list_elem_of_singleton.
    apply can_be_measured_with_refl.
  - destruct (fits t g) eqn:Hfit; constructor; auto using pairwise_compatible_snoc.
Qed.

Lemma first_fit_place_concat t groups :
  mjoin (first_fit_place t groups) ≡ₚ t :: mjoin groups.
Proof.
  induction groups as [|g groups IH]; simpl; [done|].
  destruct (fits t g); simpl.
  - rewrite <-app_assoc. simpl. symmetry. apply Permutation_middle.
  - rewrite IH. symmetry. apply Permutation_middle.
Qed.

Lemma first_fit_place_nonempty t groups :
  Forall (λ g, g ≠ []) groups → Forall (λ g, g ≠ []) (first_fit_place t groups).
Proof.
  induction 1 as [|g groups Hg Hgroups IH]; simpl.
  - by constructor.
  - destruct (fits t g); constructor; auto. by destruct g.
Qed.

Lemma foldl_first_fit_place_invariants groups terms :
  Forall pairwise_compatible groups →
  Forall (λ g, g ≠ []) groups →
  let groups' := foldl (λ groups t, first_fit_place t groups) groups terms in
  Forall pairwise_compatible groups'
  ∧ Forall (λ g, g ≠ []) groups'
  ∧ mjoin groups' ≡ₚ mjoin groups ++ terms.
Proof.
  revert groups. induction terms as [|t terms IH]; intros groups Hc Hne; simpl.
  - by rewrite app_nil_r.
  - destruct (IH (first_fit_place t groups)) as (Hc' & Hne' & Hperm);
      auto using first_fit_place_compatible, first_fit_place_nonempty.
    split_and!; [done..|].
    rewrite Hperm, first_fit_place_concat. simpl. apply Permutation_middle.
Qed.

Lemma first_fit_invariants terms :
  Forall pairwise_compatible (first_fit terms)
  ∧ Forall (λ g, g ≠ []) (first_fit terms)
  ∧ mjoin (first_fit terms) ≡ₚ terms.
Proof. by apply (foldl_first_fit_place_invariants []). Qed.

(** Groups at different positions of a duplicate-free grouping share no
    term. *)
Lemma concat_NoDup_disjoint groups i j g1 g2 t :
  NoDup (mjoin groups) →
  groups !! i = Some g1 → groups !! j = Some g2 →
  t ∈ g1 → t ∈ g2 → i = j.
Proof.
  revert i j. induction groups as [|g groups IH]; intros i j Hnd Hi Hj H1 H2;
    [done|].
  simpl in Hnd. apply NoDup_app in Hnd as (_ & Hdisj & Hnd).
  destruct i as [|i], j as [|j]; simplify_eq/=; [done| | |f_equal; eauto].
  - exfalso. apply (Hdisj t H1), list_elem_of_join. eauto using list_elem_of_lookup_2.
  - exfalso. apply (Hdisj t H2), list_elem_of_join. eauto using list_elem_of_lookup_2.
Qed.

Lemma elem_of_frozensets (G : gset (PauliString C)) groups :
  G ∈ frozensets groups ↔ ∃ g, g ∈ groups ∧ G = list_to_set g.
Proof.
  unfold frozensets. rewrite elem_of_list_to_set, list_elem_of_fmap.
  split; intros (g & ? & ?); eauto.
Qed.

End FirstFitInvariants.

(** ** Running the methods of [Observable] *)

Section Runs.
Context `{Scalar C}.
Variable set_layout : list (PauliString C) → list (PauliString C).
Hypothesis set_layout_perm : ∀ l, set_layout l ≡ₚ remove_dups l.
Implicit Types (h : gmap loc (Obj C)) (terms : list (PauliString C)).

Lemma set_layout_NoDup l : NoDup (set_layout l).
Proof. rewrite set_layout_perm. apply NoDup_remove_dups. Qed.

Lemma set_layout_elem_of l t : t ∈ set_layout l ↔ t ∈ l.
Proof. by rewrite set_layout_perm, elem_of_remove_dups. Qed.

Lemma set_layout_nil : set_layout [] = [].
Proof. apply Permutation_nil_r. by rewrite set_layout_perm. Qed.

Lemma preserved_refl h : preserved h h.
Proof. by intros l o. Qed.

Lemma preserved_trans h1 h2 h3 :
  preserved h1 h2 → preserved h2 h3 → preserved h1 h3.
Proof. intros H12 H23 l o Hl. eauto. Qed.

Lemma preserved_alloc h (o : Obj C) : preserved h (<[fresh (dom h) := o]> h).
Proof.
  intros l o' Hl. rewrite lookup_insert_ne; [done|].
  intros <-. apply (is_fresh (dom h)), elem_of_dom. eauto.
Qed.

Lemma preserved_is_observable h h' self terms :
  preserved h h' → is_observable h self terms → is_observable h' self terms.
Proof. intros Hp (ps & Hself & Hps & Hnd). exists ps. eauto. Qed.

Lemma Observable_init_run h paulis :
  ∃ self h',
    Observable_init set_layout paulis h = Ok (self, h')
    ∧ is_observable h' self (set_layout paulis)
    ∧ preserved h h'
    ∧ self ∉ dom h.
Proof.
  unfold Observable_init, new_set, bind, alloc, get_set. simpl.
  rewrite lookup_insert_eq.
  set (ps := fresh (dom h)). set (h1 := <[ps := _]> h).
  set (self := fresh (dom h1)).
  assert (ps ∉ dom h) as Hps by apply is_fresh.
  assert (self ∉ dom h1) as Hself by apply is_fresh.
  assert (self ≠ ps) as Hne.
  { intros ->. apply Hself. unfold h1. set_solver. }
  exists self, (<[self := ObjObservable ps (length (set_layout paulis))]> h1).
  split_and!; [done| | |].
  - exists ps. rewrite lookup_insert_eq, lookup_insert_ne by done.
    unfold h1. rewrite lookup_insert_eq. auto using set_layout_NoDup.
  - eapply preserved_trans; apply preserved_alloc.
  - unfold h1 in Hself. set_solver.
Qed.

Lemma nterms_run h self terms :
  is_observable h self terms → nterms self h = Ok (length terms, h).
Proof.
  intros (ps & Hself & _). unfold nterms, bind, get_observable.
  by rewrite Hself.
Qed.

Lemma _qubits_run h self terms :
  is_observable h self terms →
  _qubits self h = Ok (⋃ (pauli_qubits <$> terms), h).
Proof.
  intros (ps & Hself & Hps & _). unfold _qubits, bind, get_observable, get_set.
  rewrite Hself. simpl. by rewrite Hps.
Qed.

Lemma qubit_indices_run h self terms :
  is_observable h self terms →
  qubit_indices self h
  = Ok (merge_sort Z.le (elements (⋃ (pauli_qubits <$> terms))), h).
Proof.
  intros Hobs. unfold qubit_indices, bind. by rewrite (_qubits_run _ _ terms).
Qed.

Lemma nqubits_run h self terms :
  is_observable h self terms →
  nqubits self h
  = Ok (length (merge_sort Z.le (elements (⋃ (pauli_qubits <$> terms)))), h).
Proof.
  intros Hobs. unfold nqubits, bind. by rewrite (qubit_indices_run _ _ terms).
Qed.

(** The [while] loop pops the whole working set, in table order, and
    never runs out of fuel when given as many turns as the set has
    elements. *)
Lemma partition_while_run fuel paulis plists h elems :
  h !! paulis = Some (ObjSet elems) →
  length elems ≤ fuel →
  partition_while fuel paulis plists h
  = Ok (foldl partition_body plists elems, <[paulis := ObjSet []]> h).
Proof.
  revert fuel plists h.
  induction elems as [|t elems IH]; intros fuel plists h Hh Hfuel.
  - destruct fuel; simpl; unfold bind, get_set; rewrite Hh; simpl;
      unfold ret; by rewrite insert_id.
  - destruct fuel as [|fuel]; simpl in Hfuel; [lia|].
    simpl. unfold bind at 1. unfold get_set at 1. rewrite Hh.
    unfold bind at 1. unfold set_pop. rewrite Hh.
    rewrite (IH fuel _ _ (lookup_insert_eq h _ _)) by lia.
    by rewrite insert_insert_eq.
Qed.

(** What a call of [partition] returns and how it leaves the store: the
    only change is the working copy, a new object that ends up empty. *)
Lemma partition_run h self terms :
  is_observable h self terms →
  partition set_layout self h
  = Ok (frozensets (first_fit (set_layout terms)),
        <[fresh (dom h) := ObjSet []]> h).
Proof.
  intros (ps & Hself & Hps & _).
  unfold partition, bind at 1, get_observable. rewrite Hself. simpl.
  unfold bind at 1, deepcopy_set, bind at 1, get_set at 1. rewrite Hps.
  unfold new_set, alloc. unfold bind at 1, get_set.
  rewrite lookup_insert_eq. unfold bind.
  rewrite (partition_while_run _ _ _ _ (set_layout terms))
    by (by rewrite ?lookup_insert_eq).
  unfold ret. by rewrite insert_insert_eq, foldl_partition_body.
Qed.

End Runs.

(** ** Shapes and sums of matrices *)

Section MatrixFacts.
Context `{Scalar C}.
Implicit Types (A B : list (list C)) (r c : nat).


Lemma zeros_shape r c : has_shape r c (zeros r c).
Proof.
  split; unfold zeros; [by rewrite length_replicate|].
  apply Forall_replicate, length_replicate.
Qed.

Lemma length_bind_const {X Y} (f : X → list Y) (l : list X) k :
  Forall (λ x, length (f x) = k) l → length (l ≫= f) = length l * k.
Proof.
  induction 1 as [|x l Hx Hl IH]; [done|].
  rewrite bind_cons, length_app, IH, Hx. simpl. lia.
Qed.

Lemma Forall_bind_list {X Y} (P : Y → Prop) (f : X → list Y) (l : list X) :
  Forall (λ x, Forall P (f x)) l → Forall P (l ≫= f).
Proof.
  induction 1 as [|x l Hx Hl IH]; [constructor|].
  rewrite bind_cons. by apply Forall_app.
Qed.

Lemma kron_shape r1 c1 r2 c2 A B :
  has_shape r1 c1 A → has_shape r2 c2 B →
  has_shape (r1 * r2) (c1 * c2) (kron A B).
Proof.
  intros [HrA HcA] [HrB HcB]. unfold kron. split.
  - rewrite (length_bind_const _ _ r2), HrA; [done|].
    apply Forall_forall. intros a_row _.
    rewrite (length_bind_const _ _ 1), HrB; [lia|].
    by apply Forall_forall.
  - apply Forall_bind_list. eapply Forall_impl; [exact HcA|].
    intros a_row Ha. simpl in Ha. apply Forall_bind_list.
    eapply Forall_impl; [exact HcB|]. intros b_row Hb. simpl in Hb.
    constructor; [|constructor].
    rewrite (length_bind_const _ _ c2), Ha; [done|].
    apply Forall_forall. intros a _.
    rewrite (length_bind_const _ _ 1), Hb; [lia|].
    by apply Forall_forall.
Qed.

Lemma pauli_unitary_shape p : has_shape 2 2 (pauli_unitary p).
Proof. destruct p; split; simpl; repeat constructor. Qed.

Lemma foldl_kron_shape r c A (Us : list (list (list C))) :
  has_shape r c A → Forall (has_shape 2 2) Us →
  has_shape (r * 2 ^ length Us) (c * 2 ^ length Us) (foldl kron A Us).
Proof.
  intros HA HUs. revert r c A HA.
  induction HUs as [|U Us HU HUs IH]; intros r c A HA; cbn [foldl length].
  - by rewrite !Nat.mul_1_r.
  - rewrite Nat.pow_succ_r', !(Nat.mul_assoc _ 2).
    apply IH. by apply kron_shape.
Qed.

(** A term embedded in [n] qubits is a [2 ^ n] by [2 ^ n] matrix. *)
Lemma pauli_matrix_shape idx (p : PauliString C) :
  has_shape (2 ^ length idx) (2 ^ length idx) (pauli_matrix idx p).
Proof.
  unfold pauli_matrix.
  pose proof (foldl_kron_shape 1 1 [[coeff p]]
    ((λ q, pauli_unitary (default PauliI (ops p !! q))) <$> idx)) as Hs.
  rewrite length_fmap, !Nat.mul_1_l in Hs. apply Hs.
  - split; repeat constructor.
  - apply Forall_fmap, Forall_forall. intros q _. apply pauli_unitary_shape.
Qed.

Lemma broadcast_same {X} c (l : list X) : length l = c → broadcast c l = Some l.
Proof. intros Hl. unfold broadcast. by rewrite decide_True. Qed.

Lemma matrix_add_shape r c A B :
  has_shape r c A → has_shape r c B → has_shape r c (matrix_add A B).
Proof.
  intros [HrA HcA] [HrB HcB]. unfold matrix_add. split.
  - rewrite length_zip_with. lia.
  - clear HrA HrB. revert B HcB.
    induction HcA as [|a A Ha HA IH]; intros B HcB; [constructor|].
    destruct HcB as [|b B Hb HB]; [constructor|]. simpl.
    constructor; [|by apply IH]. rewrite length_zip_with. lia.
Qed.

(** On operands of one shape, [+=] is the entrywise sum and raises
    nothing. *)
Lemma matrix_iadd_same_shape r c A B :
  has_shape r c A → has_shape r c B →
  matrix_iadd A B = Ok (matrix_add A B).
Proof.
  intros [HrA HcA] [HrB HcB]. unfold matrix_iadd.
  rewrite broadcast_same by congruence.
  assert (mapM (λ ab : list C * list C,
                  zip_with cadd ab.1 <$> broadcast (length ab.1) ab.2)
               (zip A B) = Some (matrix_add A B)) as ->; [|done].
  clear HrA HrB. revert B HcB.
  induction HcA as [|a A Ha HA IH]; intros B HcB; [done|].
  destruct HcB as [|b B Hb HB]; [done|]. simpl.
  rewrite broadcast_same by congruence. simpl.
  unfold matrix_add in IH. by rewrite (IH B HB).
Qed.

Lemma entry_matrix_add r c A B i j :
  has_shape r c A → has_shape r c B → i < r → j < c →
  ∃ a b, entry A i j = Some a ∧ entry B i j = Some b
         ∧ entry (matrix_add A B) i j = Some (cadd a b).
Proof.
  intros [HrA HcA] [HrB HcB] Hi Hj. unfold entry, matrix_add.
  destruct (lookup_lt_is_Some_2 A i) as [ra Hra]; [lia|].
  destruct (lookup_lt_is_Some_2 B i) as [rb Hrb]; [lia|].
  pose proof (Forall_lookup_1 _ _ _ _ HcA Hra) as Hla.
  pose proof (Forall_lookup_1 _ _ _ _ HcB Hrb) as Hlb. simpl in Hla, Hlb.
  destruct (lookup_lt_is_Some_2 ra j) as [a Ha]; [lia|].
  destruct (lookup_lt_is_Some_2 rb j) as [b Hb]; [lia|].
  exists a, b. rewrite lookup_zip_with, Hra, Hrb. simpl.
  rewrite Ha, Hb, lookup_zip_with, Ha. simpl. by rewrite Hb.
Qed.

Lemma matrix_for_run idx N A (terms : list (PauliString C)) :
  N = 2 ^ length idx → has_shape N N A →
  matrix_for idx A terms
  = Ok (foldl matrix_add A (pauli_matrix idx <$> terms))
  ∧ has_shape N N (foldl matrix_add A (pauli_matrix idx <$> terms)).
Proof.
  intros ->. revert A. induction terms as [|t terms IH]; intros A HA; [done|].
  simpl. rewrite (matrix_iadd_same_shape _ _ _ _ HA (pauli_matrix_shape idx t)).
  apply IH, matrix_add_shape; [done|apply pauli_matrix_shape].
Qed.

End MatrixFacts.

(** ** The qubit indices and the matrix of an Observable *)

Section MatrixRuns.
Context `{Scalar C}.
Implicit Types (h : gmap loc (Obj C)) (terms : list (PauliString C)).

Lemma sorted_qubits_Sorted terms : Sorted Z.le (sorted_qubits terms).
Proof. apply (Sorted_merge_sort Z.le). Qed.

Lemma sorted_qubits_NoDup terms : NoDup (sorted_qubits terms).
Proof.
  unfold sorted_qubits. rewrite merge_sort_Permutation. apply NoDup_elements.
Qed.

Lemma elem_of_sorted_qubits terms q :
  q ∈ sorted_qubits terms ↔ ∃ t, t ∈ terms ∧ q ∈ pauli_qubits t.
Proof.
  unfold sorted_qubits.
  rewrite merge_sort_Permutation, elem_of_elements, elem_of_union_list.
  setoid_rewrite list_elem_of_fmap. split.
  - intros (X & (t & -> & Ht) & Hq). eauto.
  - intros (t & Ht & Hq). eauto.
Qed.

Lemma matrix_run h self terms :
  is_observable h self terms →
  matrix self h
  = Ok (matrix_sum (2 ^ length (sorted_qubits terms))
                   (2 ^ length (sorted_qubits terms))
                   (pauli_matrix (sorted_qubits terms) <$> terms), h).
Proof.
  intros Hobs. unfold matrix, bind at 1.
  rewrite (qubit_indices_run _ _ terms Hobs). unfold bind at 1.
  rewrite (nqubits_run _ _ terms Hobs). fold (sorted_qubits terms).
  destruct Hobs as (ps & Hself & Hps & _).
  unfold bind, get_observable, get_set. rewrite Hself. simpl. rewrite Hps.
  destruct (matrix_for_run (sorted_qubits terms) _
              (zeros (2 ^ length (sorted_qubits terms))
                     (2 ^ length (sorted_qubits terms))) terms eq_refl)
    as [-> _]; [apply zeros_shape|done].
Qed.

Lemma entry_foldl_matrix_add r c (A : list (list C)) Bs i j :
  has_shape r c A → Forall (has_shape r c) Bs → i < r → j < c →
  ∃ a bs,
    entry A i j = Some a
    ∧ Forall2 (λ B b, entry B i j = Some b) Bs bs
    ∧ entry (foldl matrix_add A Bs) i j = Some (foldl cadd a bs).
Proof.
  intros HA HBs Hi Hj. revert A HA.
  induction HBs as [|B Bs HB HBs IH]; intros A HA.
  - destruct (entry_matrix_add r c A A i j) as (a & _ & Ha & _); [done..|].
    exists a, []. by repeat split.
  - destruct (entry_matrix_add r c A B i j) as (a & b & Ha & Hb & Hab);
      [done..|].
    destruct (IH (matrix_add A B)) as (ab & bs & Hab' & Hbs & Hfold);
      [by apply matrix_add_shape|].
    exists a, (b :: bs). rewrite Hab in Hab'. simplify_eq.
    split_and!; [done|by constructor|done].
Qed.

Lemma entry_zeros r c i j : i < r → j < c → entry (zeros r c) i j = Some czero.
Proof.
  intros Hi Hj. unfold entry, zeros.
  rewrite lookup_replicate_2 by done. simpl. by rewrite lookup_replicate_2.
Qed.

End MatrixRuns.

(** * The claims about [Observable] *)

Section ObservableClaims.
Context `{Scalar C}.
Variable set_layout : list (PauliString C) → list (PauliString C).
Hypothesis set_layout_perm : ∀ l, set_layout l ≡ₚ remove_dups l.
Implicit Types (h : gmap loc (Obj C)) (terms : list (PauliString C)).

(** C1.  For an Observable holding the term set [terms], [partition] returns
    a set of groups such that any two terms of one group can be measured
    together, every term of the Observable is in some group and every member
    of a group is a term of the Observable, and no term is in two different
    groups: the groups partition the term set. *)
Theorem partition_is_partition_into_compatible_groups h self terms :
  is_observable h self terms →
  ∃ groups h',
    partition set_layout self h = Ok (groups, h')
    ∧ (∀ G p q, G ∈ groups → p ∈ G → q ∈ G →
                can_be_measured_with p q = true)
    ∧ ⋃ (elements groups) = list_to_set terms
    ∧ (∀ t, t ∈ terms ↔ ∃ G, G ∈ groups ∧ t ∈ G)
    ∧ (∀ G1 G2 t, G1 ∈ groups → G2 ∈ groups → t ∈ G1 → t ∈ G2 → G1 = G2).
Proof.
  intros Hobs. eexists _, _. split; [by apply partition_run|].
  destruct Hobs as (_ & _ & _ & Hnd).
  set (order := set_layout terms).
  destruct (first_fit_invariants order) as (Hcompat & _ & Hperm).
  assert (Hterms : ∀ t, t ∈ terms ↔ ∃ G, G ∈ frozensets (first_fit order) ∧ t ∈ G).
  { intros t. rewrite <-(set_layout_elem_of set_layout set_layout_perm terms t).
    fold order. rewrite <-Hperm, list_elem_of_join. split.
    - intros (g & Ht & Hg). exists (list_to_set g).
      rewrite elem_of_frozensets, elem_of_list_to_set. eauto.
    - intros (G & (g & Hg & ->)%elem_of_frozensets & Ht).
      rewrite elem_of_list_to_set in Ht. eauto. }
  split_and!; [| |done|].
  - intros G p q (g & Hg & ->)%elem_of_frozensets Hp Hq.
    rewrite elem_of_list_to_set in Hp, Hq.
    rewrite Forall_forall in Hcompat. by apply (Hcompat g).
  - apply set_eq. intros t.
    rewrite elem_of_union_list, elem_of_list_to_set, Hterms.
    by setoid_rewrite elem_of_elements.
  - intros G1 G2 t (g1 & Hg1 & ->)%elem_of_frozensets
      (g2 & Hg2 & ->)%elem_of_frozensets Ht1 Ht2.
    rewrite elem_of_list_to_set in Ht1, Ht2.
    apply list_elem_of_lookup in Hg1 as [i Hi], Hg2 as [j Hj].
    assert (i = j) as ->; [|congruence].
    eapply (concat_NoDup_disjoint (first_fit order)); [|done..].
    rewrite Hperm. by apply set_layout_NoDup.
Qed.

(** C2.  [partition] is greedy first-fit grouping: the terms are taken in
    the iteration order of the working copy of the term set, each is placed
    into the first existing group all of whose members it can be measured
    with, or starts a new group when there is none, and the groups are
    returned as a set of frozensets: what is returned holds, for every group
    of the first-fit grouping, the set of the terms of that group, and
    nothing else. *)
Theorem partition_is_greedy_first_fit h self terms :
  is_observable h self terms →
  ∃ groups h',
    partition set_layout self h = Ok (groups, h')
    ∧ set_layout terms ≡ₚ terms
    ∧ (∀ G : gset (PauliString C),
         G ∈ groups
         ↔ ∃ g, g ∈ first_fit (set_layout terms) ∧ ∀ t, t ∈ G ↔ t ∈ g).
Proof.
  intros Hobs. eexists _, _.
  split; [by apply partition_run|].
  assert (set_layout terms ≡ₚ terms) as Hperm.
  { destruct Hobs as (_ & _ & _ & Hterms).
    apply NoDup_Permutation; [by apply set_layout_NoDup|done|].
    intros t. by apply set_layout_elem_of. }
  split; [done|].
  intros G. rewrite elem_of_frozensets. split.
  - intros (g & Hg & ->). exists g. split; [done|].
    intros t. by rewrite elem_of_list_to_set.
  - intros (g & Hg & HG). exists g. split; [done|].
    apply set_eq. intros t. by rewrite elem_of_list_to_set.
Qed.

(** C3.  [matrix] returns a matrix with [2 ^ nqubits] rows and
    [2 ^ nqubits] columns whose every entry is the sum, over the terms of
    the Observable, of the entries of the terms' matrices, each embedded in
    the sorted list of all the qubits of the Observable. *)
Theorem matrix_is_sum_of_embedded_terms h self terms :
  is_observable h self terms →
  ∃ idx Mx,
    qubit_indices self h = Ok (idx, h)
    ∧ nqubits self h = Ok (length idx, h)
    ∧ Sorted Z.le idx ∧ NoDup idx
    ∧ (∀ q, q ∈ idx ↔ ∃ t, t ∈ terms ∧ q ∈ pauli_qubits t)
    ∧ matrix self h = Ok (Mx, h)
    ∧ has_shape (2 ^ length idx) (2 ^ length idx) Mx
    ∧ Forall (λ t, has_shape (2 ^ length idx) (2 ^ length idx)
                     (pauli_matrix idx t)) terms
    ∧ Mx = matrix_sum (2 ^ length idx) (2 ^ length idx)
             (pauli_matrix idx <$> terms)
    ∧ (∀ i j, i < 2 ^ length idx → j < 2 ^ length idx →
         ∃ es, Forall2 (λ t e, entry (pauli_matrix idx t) i j = Some e) terms es
               ∧ entry Mx i j = Some (foldl cadd czero es)).
Proof.
  intros Hobs. exists (sorted_qubits terms). eexists.
  set (N := 2 ^ length (sorted_qubits terms)).
  assert (Forall (has_shape N N) (pauli_matrix (sorted_qubits terms) <$> terms))
    as Hshapes.
  { apply Forall_fmap, Forall_forall. intros t _. apply pauli_matrix_shape. }
  split_and!.
  - by apply qubit_indices_run.
  - by apply nqubits_run.
  - apply sorted_qubits_Sorted.
  - apply sorted_qubits_NoDup.
  - apply elem_of_sorted_qubits.
  - by apply matrix_run.
  - by apply (matrix_for_run (sorted_qubits terms) N _ terms eq_refl), zeros_shape.
  - apply Forall_forall. intros t _. apply pauli_matrix_shape.
  - done.
  - intros i j Hi Hj.
    destruct (entry_foldl_matrix_add N N (zeros N N) _ i j
                (zeros_shape N N) Hshapes Hi Hj) as (a & es & Ha & Hes & Hsum).
    rewrite entry_zeros in Ha by done. simplify_eq.
    exists es. split; [|done]. by apply Forall2_fmap_l in Hes.
Qed.

(** C10.  An Observable constructed from no term at all has [nterms] 0, the
    empty list of qubit indices, the empty partition and the 1 by 1 zero
    matrix; none of these operations raises. *)
Theorem observable_of_zero_terms h :
  ∃ self h1,
    Observable_init set_layout [] h = Ok (self, h1)
    ∧ nterms self h1 = Ok (0, h1)
    ∧ qubit_indices self h1 = Ok ([], h1)
    ∧ nqubits self h1 = Ok (0, h1)
    ∧ (∃ h2, partition set_layout self h1 = Ok (∅, h2))
    ∧ matrix self h1 = Ok ([[czero]], h1).
Proof.
  destruct (Observable_init_run set_layout set_layout_perm h [])
    as (self & h1 & Hinit & Hobs & _).
  rewrite (set_layout_nil set_layout set_layout_perm) in Hobs.
  exists self, h1. split_and!; [done|..].
  - by rewrite (nterms_run _ _ [] Hobs).
  - by rewrite (qubit_indices_run _ _ [] Hobs).
  - by rewrite (nqubits_run _ _ [] Hobs).
  - eexists. rewrite (partition_run set_layout h1 self [] Hobs).
    by rewrite (set_layout_nil set_layout set_layout_perm).
  - by rewrite (matrix_run _ _ [] Hobs).
Qed.

End ObservableClaims.


(** * Clifford training data *)

(** ** Comparisons and rounding *)

Lemma Qlt_bool_iff (a b : Q) : Qlt_bool a b = true ↔ (a < b)%Q.
Proof.
  unfold Qlt_bool. rewrite negb_true_iff, <-not_true_iff_false, Qle_bool_iff.
  split; [apply Qnot_le_lt|apply Qlt_not_le].
Qed.

Lemma Qlt_bool_false_iff (a b : Q) : Qlt_bool a b = false ↔ (b <= a)%Q.
Proof. unfold Qlt_bool. by rewrite negb_false_iff, Qle_bool_iff. Qed.

Lemma inject_Z_lt_1 (j : Z) :
  (- (1) < inject_Z j)%Q → (inject_Z j < 1)%Q → j = 0%Z.
Proof.
  change (- (1))%Q with (inject_Z (-1)). change 1%Q with (inject_Z 1).
  rewrite <-!Zlt_Qlt. lia.
Qed.

Lemma inject_Z_cases (j : Z) : (0 <= inject_Z j)%Q ∨ (inject_Z j <= - (1))%Q.
Proof.
  change 0%Q with (inject_Z 0). change (- (1))%Q with (inject_Z (-1)).
  rewrite <-!Zle_Qle. lia.
Qed.


(** ** Angles *)

Section Angles.
Variable pi : Q.
Local Open Scope Q_scope.

Lemma elem_of_CLIFFORD_ANGLES (c : Q) :
  c ∈ CLIFFORD_ANGLES pi ↔ ∃ m, (m < 4)%nat ∧ c = clifford_angle pi m.
Proof.
  unfold CLIFFORD_ANGLES. split.
  - rewrite !elem_of_cons, elem_of_nil. intros [->|[->|[->|[->|[]]]]];
      [exists 0%nat|exists 1%nat|exists 2%nat|exists 3%nat]; split; done || lia.
  - intros (m & Hm & ->). destruct m as [|[|[|[|m]]]]; [..|lia];
      unfold clifford_angle; simpl; set_solver.
Qed.

(** [nearest] returns its starting angle or one of the candidates. *)
Lemma nearest_elem_of (θ best : Q) (cs : list Q) :
  nearest pi θ best cs ∈ best :: cs.
Proof.
  revert best. induction cs as [|c cs IH]; intros best; simpl; [set_solver|].
  destruct (Qlt_bool _ _).
  - apply elem_of_cons. right. apply IH.
  - destruct (proj1 (elem_of_cons _ _ _) (IH best)) as [->|Hin].
    + by apply elem_of_cons; left.
    + apply elem_of_cons. right. by apply elem_of_cons; right.
Qed.

Lemma _closest_clifford_elem_of (θ : Q) :
  _closest_clifford pi θ ∈ CLIFFORD_ANGLES pi.
Proof.
  unfold _closest_clifford, CLIFFORD_ANGLES.
  exact (nearest_elem_of θ 0 [pi / 2; pi; (3 # 2) * pi]).
Qed.

(** [nearest] returns the first of the nearest angles. *)
Lemma nearest_first_minimum (θ best : Q) (pre post cs : list Q) :
  Forall (λ c, circular_distance pi θ best < circular_distance pi θ c) pre →
  Forall (λ c, circular_distance pi θ best <= circular_distance pi θ c) post →
  ∃ pre' post',
    pre ++ best :: post ++ cs = pre' ++ nearest pi θ best cs :: post'
    ∧ Forall (λ c, circular_distance pi θ (nearest pi θ best cs)
                   < circular_distance pi θ c) pre'
    ∧ Forall (λ c, circular_distance pi θ (nearest pi θ best cs)
                   <= circular_distance pi θ c) post'.
Proof.
  revert best pre post. induction cs as [|c cs IH]; intros best pre post Hpre Hpost.
  - exists pre, post. by rewrite app_nil_r.
  - simpl. destruct (Qlt_bool _ _) eqn:Hlt.
    + apply Qlt_bool_iff in Hlt.
      destruct (IH c (pre ++ best :: post) []) as (pre' & post' & Heq & H1 & H2).
      * apply Forall_app. split; [|constructor].
        -- eapply Forall_impl; [exact Hpre|]. intros x Hx. simpl in Hx. lra.
        -- done.
        -- eapply Forall_impl; [exact Hpost|]. intros x Hx. simpl in Hx. lra.
      * constructor.
      * exists pre', post'. split; [|done]. rewrite <-Heq.
        by rewrite <-app_assoc.
    + apply Qlt_bool_false_iff in Hlt.
      destruct (IH best pre (post ++ [c])) as (pre' & post' & Heq & H1 & H2).
      * done.
      * apply Forall_app. split; [done|]. by repeat constructor.
      * exists pre', post'. split; [|done]. rewrite <-Heq.
        by rewrite <-app_assoc.
Qed.

Hypothesis pi_pos : 0 < pi.

Lemma clifford_angle_multiple (m : nat) :
  (m < 4)%nat → clifford_angle pi m == inject_Z (Z.of_nat m) * (pi * (1 # 2)).
Proof.
  intros Hm. destruct m as [|[|[|[|m]]]]; [..|lia]; unfold clifford_angle;
    simpl; unfold Qdiv; change (/ 2) with (1 # 2);
    [change (inject_Z (Z.of_nat 0)) with 0
    |change (inject_Z (Z.of_nat 1)) with 1
    |change (inject_Z (Z.of_nat 2)) with 2
    |change (inject_Z (Z.of_nat 3)) with 3]; lra.
Qed.

(** [θ % (2 * np.pi)] differs from [θ] by a multiple of [2π] and lies in
    [[0, 2π)]. *)
Lemma mod_2pi_spec (θ : Q) :
  mod_2pi pi θ == θ - inject_Z (Qfloor (θ / (2 * pi))) * (2 * pi)
  ∧ 0 <= mod_2pi pi θ ∧ mod_2pi pi θ < 2 * pi.
Proof.
  unfold mod_2pi. set (x := θ / (2 * pi)).
  assert (x * (2 * pi) == θ) as Hx.
  { unfold x. field. lra. }
  pose proof (Qfloor_le x) as Hlo. pose proof (Qlt_floor x) as Hhi.
  rewrite inject_Z_plus in Hhi. change (inject_Z 1) with 1 in Hhi.
  set (k := inject_Z (Qfloor x)) in *.
  split; [reflexivity|]. split; nra.
Qed.

Lemma mod_2pi_unique (θ : Q) (k : Z) :
  0 <= θ - inject_Z k * (2 * pi) → θ - inject_Z k * (2 * pi) < 2 * pi →
  mod_2pi pi θ == θ - inject_Z k * (2 * pi).
Proof.
  intros Hlo Hhi. destruct (mod_2pi_spec θ) as (Heq & Hlo' & Hhi').
  rewrite Heq in *. set (k' := Qfloor (θ / (2 * pi))) in *.
  assert (k - k' = 0)%Z as Hk.
  { apply inject_Z_lt_1; unfold Zminus; rewrite inject_Z_plus, inject_Z_opp;
      nra. }
  assert (k' = k) as -> by lia. reflexivity.
Qed.

(** The circular distance is the least of the distances between the two
    angles shifted by whole turns. *)
Lemma circular_distance_attained (a b : Q) :
  ∃ k : Z, circular_distance pi a b == Qabs (a - b - inject_Z k * (2 * pi)).
Proof.
  unfold circular_distance.
  destruct (mod_2pi_spec (a - b)) as (Heq & Hlo & Hhi).
  set (k := Qfloor ((a - b) / (2 * pi))) in *.
  set (d := mod_2pi pi (a - b)) in *.
  destruct (Qle_bool d (2 * pi - d)) eqn:Hle.
  - exists k. rewrite <-Heq. symmetry. by apply Qabs_pos.
  - exists (k + 1)%Z. rewrite inject_Z_plus. change (inject_Z 1) with 1.
    rewrite Qabs_neg; lra.
Qed.

Lemma circular_distance_least (a b : Q) (k : Z) :
  circular_distance pi a b <= Qabs (a - b - inject_Z k * (2 * pi)).
Proof.
  unfold circular_distance.
  destruct (mod_2pi_spec (a - b)) as (Heq & Hlo & Hhi).
  set (k0 := Qfloor ((a - b) / (2 * pi))) in *.
  set (d := mod_2pi pi (a - b)) in *.
  assert (a - b - inject_Z k * (2 * pi)
          == d + inject_Z (k0 - k) * (2 * pi)) as ->.
  { unfold Zminus. rewrite inject_Z_plus, inject_Z_opp. lra. }
  set (j := inject_Z (k0 - k)).
  assert (d <= Qabs (d + j * (2 * pi)) ∨ 2 * pi - d <= Qabs (d + j * (2 * pi)))
    as Hcases.
  { destruct (inject_Z_cases (k0 - k)) as [Hj|Hj]; fold j in Hj.
    - left. rewrite Qabs_pos; nra.
    - right. rewrite Qabs_neg; nra. }
  destruct (Qle_bool d (2 * pi - d)) eqn:Hle.
  - apply Qle_bool_iff in Hle. destruct Hcases; lra.
  - apply not_true_iff_false in Hle. rewrite Qle_bool_iff in Hle.
    apply Qnot_le_lt in Hle. destruct Hcases; lra.
Qed.

(** An angle within a quarter of [π] of a canonical angle is strictly nearer
    to it than to any other canonical angle. *)
Lemma circular_distance_nearest (θ : Q) (m m' : nat) :
  (m < 4)%nat → (m' < 4)%nat → m ≠ m' →
  Qabs (θ - clifford_angle pi m) < pi / 4 →
  circular_distance pi θ (clifford_angle pi m)
  < circular_distance pi θ (clifford_angle pi m').
Proof.
  intros Hm Hm' Hne Hnear.
  unfold Qdiv in Hnear. change (/ 4) with (1 # 4) in Hnear.
  pose proof (circular_distance_least θ (clifford_angle pi m) 0) as Hle.
  change (inject_Z 0) with 0 in Hle.
  assert (θ - clifford_angle pi m - 0 * (2 * pi) == θ - clifford_angle pi m) as Hz
    by lra.
  rewrite Hz in Hle. clear Hz.
  destruct (circular_distance_attained θ (clifford_angle pi m')) as [k Hk].
  apply Qnot_le_lt. intros Hcontra. rewrite Hk in Hcontra.
  assert (Qabs (θ - clifford_angle pi m' - inject_Z k * (2 * pi)) < pi * (1 # 4))
    as Hnear' by lra.
  apply Qabs_Qlt_condition in Hnear, Hnear'.
  rewrite (clifford_angle_multiple m Hm) in Hnear.
  rewrite (clifford_angle_multiple m' Hm') in Hnear'.
  assert (Z.of_nat m - Z.of_nat m' - 4 * k = 0)%Z; [|lia].
  apply inject_Z_lt_1; unfold Zminus;
    rewrite !inject_Z_plus, !inject_Z_opp, inject_Z_mult;
    change (inject_Z 4) with 4; nra.
Qed.

(** C6.  An angle strictly within a quarter of [π] of a canonical Clifford
    angle is mapped by [_closest_clifford] to that canonical angle.  For every
    angle, what is returned is a nearest canonical angle, and the first one in
    the order of the angles among those equally near. *)
Theorem closest_clifford_within_quarter_pi (θ c : Q) :
  (c ∈ CLIFFORD_ANGLES pi → Qabs (θ - c) < pi / 4 → _closest_clifford pi θ = c)
  ∧ ∃ before after,
      CLIFFORD_ANGLES pi = before ++ _closest_clifford pi θ :: after
      ∧ Forall (λ c', circular_distance pi θ (_closest_clifford pi θ)
                      < circular_distance pi θ c') before
      ∧ Forall (λ c', circular_distance pi θ (_closest_clifford pi θ)
                      <= circular_distance pi θ c') after.
Proof.
  split.
  - intros (m & Hm & ->)%elem_of_CLIFFORD_ANGLES Hnear.
    assert (∀ m', (m' < 4)%nat → m ≠ m' →
              circular_distance pi θ (clifford_angle pi m)
              < circular_distance pi θ (clifford_angle pi m')) as Hlt.
    { intros m' Hm' Hne. by apply circular_distance_nearest. }
    change (_closest_clifford pi θ)
      with (nearest pi θ (clifford_angle pi 0)
              [clifford_angle pi 1; clifford_angle pi 2; clifford_angle pi 3]).
    cbn [nearest].
    pose proof (Hlt 0%nat) as H0. pose proof (Hlt 1%nat) as H1.
    pose proof (Hlt 2%nat) as H2. pose proof (Hlt 3%nat) as H3.
    clear Hlt Hnear.
    destruct m as [|[|[|[|m]]]]; [..|lia];
      repeat match goal with
             | H : (_ < 4)%nat → _ |- _ =>
                 first [specialize (H ltac:(lia) ltac:(lia))|clear H]
             end;
      set (d0 := circular_distance pi θ (clifford_angle pi 0)) in *;
      set (d1 := circular_distance pi θ (clifford_angle pi 1)) in *;
      set (d2 := circular_distance pi θ (clifford_angle pi 2)) in *;
      set (d3 := circular_distance pi θ (clifford_angle pi 3)) in *;
      clearbody d0 d1 d2 d3;
      repeat match goal with
             | |- context [Qlt_bool ?a ?b] =>
                 let E := fresh "E" in
                 destruct (Qlt_bool a b) eqn:E;
                 [apply Qlt_bool_iff in E|apply Qlt_bool_false_iff in E]
             end;
      first [reflexivity|exfalso; lra].
  - destruct (nearest_first_minimum θ 0 [] [] [pi / 2; pi; (3 # 2) * pi])
      as (pre & post & Heq & Hpre & Hpost); [constructor..|].
    exists pre, post. by split.
Qed.

End Angles.

(** ** Random choices *)

Lemma weighted_pick_elem_of {A} (d : A) (items : list (A * Q)) (x : Q) :
  items ≠ [] → weighted_pick d items x ∈ items.*1.
Proof.
  revert x. induction items as [|[a w] items IH]; intros x Hne; [done|].
  simpl. destruct items as [|item items]; [by apply list_elem_of_singleton|].
  destruct (Qlt_bool x w); [by apply elem_of_cons; left|].
  apply elem_of_cons. right. by apply IH.
Qed.

Lemma random_choice_run {A} (d : A) (items : list (A * Q)) (s : CdrState) :
  items ≠ [] →
  ∃ a s', random_choice d items s = (Ok a, s')
          ∧ a ∈ items.*1 ∧ circuits s' = circuits s.
Proof.
  intros Hne. eexists _, _. split; [reflexivity|].
  split; [by apply weighted_pick_elem_of|done].
Qed.



Lemma gmapM_run {A B} (f : A → G B) (P : B → Prop) (l : list A) (s : CdrState) :
  (∀ x s, ∃ y s', f x s = (Ok y, s') ∧ P y ∧ circuits s' = circuits s) →
  ∃ ys s',
    gmapM f l s = (Ok ys, s')
    ∧ Forall P ys ∧ length ys = length l ∧ circuits s' = circuits s.
Proof.
  intros Hf. revert s. induction l as [|x l IH]; intros s.
  - exists [], s. by split_and!.
  - destruct (Hf x s) as (y & s1 & Hy & HP & Hs1).
    destruct (IH s1) as (ys & s2 & Hys & HPs & Hlen & Hs2).
    exists (y :: ys), s2. simpl. unfold gbind. rewrite Hy, Hys.
    split_and!; [done|by constructor|simpl; lia|congruence].
Qed.

(** ** Selection and replacement *)

Section Replacement.
Variable pi : Q.
Variable tol : Q.
Variable kernel : Q → Q → Q.

Lemma _random_clifford_run (θ : Q) (s : CdrState) :
  ∃ c s', _random_clifford pi θ s = (Ok c, s')
          ∧ c ∈ CLIFFORD_ANGLES pi ∧ circuits s' = circuits s.
Proof.
  eexists _, _. split; [reflexivity|]. split; [|done].
  apply elem_of_CLIFFORD_ANGLES. eexists. split; [|reflexivity].
  apply (Nat.mod_upper_bound _ 4). lia.
Qed.

Lemma _probabilistic_angle_to_clifford_run (θ sigma : Q) (s : CdrState) :
  ∃ c s', _probabilistic_angle_to_clifford pi kernel θ sigma s = (Ok c, s')
          ∧ c ∈ CLIFFORD_ANGLES pi ∧ circuits s' = circuits s.
Proof.
  unfold _probabilistic_angle_to_clifford.
  edestruct (random_choice_run 0%Q) as (c & s' & -> & Hc & Hs'); [|].
  2:{ exists c, s'. split_and!; [done| |done].
      rewrite <-list_fmap_compose in Hc. by rewrite list_fmap_id in Hc. }
  done.
Qed.

(** [_replace] with a recognised policy returns as many angles as it was
    given, all of them canonical, and leaves the circuit objects alone. *)
Lemma _replace_run (angles : list Q) (method_replace : string)
    (sigma_select sigma_replace : Q) (s : CdrState) :
  method_replace ∈ ["closest"; "random"; "probabilistic"] →
  ∃ replaced s',
    _replace pi kernel angles method_replace sigma_select sigma_replace s
    = (Ok replaced, s')
    ∧ Forall (λ c, c ∈ CLIFFORD_ANGLES pi) replaced
    ∧ length replaced = length angles
    ∧ circuits s' = circuits s.
Proof.
  intros Hm. unfold _replace.
  repeat apply elem_of_cons in Hm as [->|Hm]; [..|by apply elem_of_nil in Hm];
    simpl.
  - eexists _, s. split_and!; [done| |by rewrite length_fmap|done].
    apply Forall_fmap, Forall_forall. intros θ _. apply _closest_clifford_elem_of.
  - apply gmapM_run. intros θ s0. apply _random_clifford_run.
  - apply (gmapM_run (λ θ, _probabilistic_angle_to_clifford pi kernel θ
                             sigma_replace)).
    intros θ s0. apply _probabilistic_angle_to_clifford_run.
Qed.


Hypothesis pi_pos : (0 < pi)%Q.
Hypothesis tol_pos : (0 < tol)%Q.

(** The canonical angles are Clifford angles. *)
Lemma CLIFFORD_ANGLES_are_clifford (c : Q) :
  c ∈ CLIFFORD_ANGLES pi → _is_clifford_angle pi tol c = true.
Proof.
  intros Hc. unfold _is_clifford_angle. apply existsb_exists.
  exists c. split; [by apply list_elem_of_In|].
  apply Qlt_bool_iff.
  assert (0 <= c ∧ c < 2 * pi)%Q as [Hlo Hhi].
  { apply elem_of_CLIFFORD_ANGLES in Hc as (m & Hm & ->).
    rewrite (clifford_angle_multiple pi m Hm).
    destruct m as [|[|[|[|m]]]]; [..|lia];
      [change (inject_Z (Z.of_nat 0)) with 0%Q
      |change (inject_Z (Z.of_nat 1)) with 1%Q
      |change (inject_Z (Z.of_nat 2)) with 2%Q
      |change (inject_Z (Z.of_nat 3)) with 3%Q]; split; lra. }
  pose proof (mod_2pi_unique pi pi_pos c 0) as Hmod.
  change (inject_Z 0) with 0%Q in Hmod.
  assert (mod_2pi pi c - c == 0)%Q as ->; [|done].
  rewrite Hmod; lra.
Qed.

End Replacement.

(** ** Circuits *)

Lemma keeps_circuits_gret {A} (a : A) : keeps_circuits (gret a).
Proof. by intros s l c. Qed.

Lemma keeps_circuits_graise {A} (e : Error) : keeps_circuits (@graise A e).
Proof. by intros s l c. Qed.

Lemma keeps_circuits_gbind {A B} (m : G A) (k : A → G B) :
  keeps_circuits m → (∀ a, keeps_circuits (k a)) → keeps_circuits (gbind m k).
Proof.
  intros Hm Hk s l c Hl. unfold gbind. specialize (Hm s l c Hl).
  destruct (m s) as [[a|e] s1]; simpl in *; [by apply Hk|done].
Qed.

Lemma keeps_circuits_random_raw : keeps_circuits random_raw.
Proof. by intros s l c. Qed.

Lemma keeps_circuits_alloc_circuit (c : list Operation) :
  keeps_circuits (alloc_circuit c).
Proof.
  intros s l c0 Hl. simpl. rewrite lookup_insert_ne; [done|].
  intros <-. apply (is_fresh (dom (circuits s))), elem_of_dom. eauto.
Qed.

Lemma keeps_circuits_get_circuit (l : loc) : keeps_circuits (get_circuit l).
Proof. intros s l' c Hl. unfold get_circuit. by destruct (circuits s !! l). Qed.

Lemma keeps_circuits_gmapM {A B} (f : A → G B) (l : list A) :
  (∀ x, keeps_circuits (f x)) → keeps_circuits (gmapM f l).
Proof.
  intros Hf. induction l as [|x l IH]; simpl; [apply keeps_circuits_gret|].
  apply keeps_circuits_gbind; [done|]. intros y.
  apply keeps_circuits_gbind; [done|]. intros ys. apply keeps_circuits_gret.
Qed.

Lemma keeps_circuits_random_choice {A} (d : A) (items : list (A * Q)) :
  keeps_circuits (random_choice d items).
Proof. by intros s l c. Qed.

Lemma keeps_circuits_choice_without_replacement (k : nat)
    (items : list (nat * Q)) :
  keeps_circuits (choice_without_replacement k items).
Proof.
  revert items. induction k as [|k IH]; intros items; simpl;
    [apply keeps_circuits_gret|].
  destruct items as [|[i0 w0] items]; [apply keeps_circuits_graise|].
  apply keeps_circuits_gbind; [apply keeps_circuits_random_choice|]. intros i.
  apply keeps_circuits_gbind; [apply IH|]. intros rest. apply keeps_circuits_gret.
Qed.

Section Circuits.
Variable pi : Q.
Variable tol : Q.
Variable kernel : Q → Q → Q.

Lemma keeps_circuits__select rz f method_select sigma_select :
  keeps_circuits (_select pi kernel rz f method_select sigma_select).
Proof.
  unfold _select. repeat case_decide;
    auto using keeps_circuits_graise, keeps_circuits_choice_without_replacement.
Qed.

Lemma keeps_circuits__replace angles method_replace sigma_select sigma_replace :
  keeps_circuits
    (_replace pi kernel angles method_replace sigma_select sigma_replace).
Proof.
  unfold _replace. repeat case_decide;
    auto using keeps_circuits_graise, keeps_circuits_gret.
  - apply keeps_circuits_gmapM. by intros θ s l c.
  - apply keeps_circuits_gmapM. intros θ. apply keeps_circuits_random_choice.
Qed.

Lemma keeps_circuits__map_to_near_clifford circuit f method_select
    method_replace sigma_select sigma_replace :
  keeps_circuits
    (_map_to_near_clifford pi tol kernel circuit f method_select method_replace
       sigma_select sigma_replace).
Proof.
  unfold _map_to_near_clifford.
  apply keeps_circuits_gbind; [apply keeps_circuits__select|]. intros cols.
  apply keeps_circuits_gbind; [apply keeps_circuits__replace|]. intros replaced.
  apply keeps_circuits_gret.
Qed.

Lemma keeps_circuits_generate_training_circuits circuit n f method_select
    method_replace sigma_select sigma_replace :
  keeps_circuits
    (generate_training_circuits pi tol kernel circuit n f method_select
       method_replace sigma_select sigma_replace).
Proof.
  unfold generate_training_circuits.
  apply keeps_circuits_gbind; [apply keeps_circuits_get_circuit|]. intros c.
  induction n as [|n IH]; simpl; [apply keeps_circuits_gret|].
  apply keeps_circuits_gbind; [apply keeps_circuits__map_to_near_clifford|].
  intros near.
  apply keeps_circuits_gbind; [apply keeps_circuits_alloc_circuit|]. intros l.
  apply keeps_circuits_gbind; [apply IH|]. intros ls. apply keeps_circuits_gret.
Qed.








Hypothesis pi_pos : (0 < pi)%Q.
Hypothesis tol_pos : (0 < tol)%Q.


End Circuits.

(** * The claims about the training circuits *)


Section TrainingClaims.
Variable pi : Q.
Variable tol : Q.
Variable kernel : Q → Q → Q.




Hypothesis pi_pos : (0 < pi)%Q.
Hypothesis tol_pos : (0 < tol)%Q.

(** C5.  For every sequence of angles and each of the replacement policies
    closest, random and probabilistic, [_replace] returns one angle for each
    angle it was given, and every angle it returns satisfies
    [_is_clifford_angle]. *)
Theorem replaced_angles_are_clifford (angles : list Q)
    (method_replace : string) (sigma_select sigma_replace : Q) (s : CdrState) :
  method_replace ∈ ["closest"; "random"; "probabilistic"] →
  ∃ replaced s',
    _replace pi kernel angles method_replace sigma_select sigma_replace s
    = (Ok replaced, s')
    ∧ length replaced = length angles
    ∧ Forall (λ θ, _is_clifford_angle pi tol θ = true) replaced.
Proof.
  intros Hm.
  destruct (_replace_run pi kernel angles method_replace sigma_select
              sigma_replace s Hm) as (replaced & s' & Hrun & Hc & Hlen & _).
  exists replaced, s'. split_and!; [done..|].
  eapply Forall_impl; [exact Hc|]. intros c.
  by apply CLIFFORD_ANGLES_are_clifford.
Qed.



End TrainingClaims.

(** C9.  The queries of an Observable leave it as it is: [nterms],
    [qubit_indices], [nqubits] and [matrix] return without changing the store
    at all, and [partition] changes no object that existed, so that afterwards
    the Observable has the same term set, the same [nterms] and the same qubit
    indices.  [generate_training_circuits] changes no circuit object that
    existed, the input circuit among them, whether it returns or raises. *)
Theorem queries_leave_observable_and_circuit_unchanged `{Scalar C}
    (set_layout : list (PauliString C) → list (PauliString C))
    (h : gmap loc (Obj C)) (self : loc) (terms : list (PauliString C))
    (pi tol : Q) (kernel : Q → Q → Q) (s : CdrState) (circuit : loc)
    (c : list Operation) (n : nat) (fraction_non_clifford : Q)
    (method_select method_replace : string) (sigma_select sigma_replace : Q) :
  is_observable h self terms →
  circuits s !! circuit = Some c →
  (∃ k idx Mx,
     nterms self h = Ok (k, h)
     ∧ qubit_indices self h = Ok (idx, h)
     ∧ nqubits self h = Ok (length idx, h)
     ∧ matrix self h = Ok (Mx, h)
     ∧ ∃ groups h',
         partition set_layout self h = Ok (groups, h')
         ∧ preserved h h'
         ∧ is_observable h' self terms
         ∧ nterms self h' = Ok (k, h')
         ∧ qubit_indices self h' = Ok (idx, h'))
  ∧ (∀ r s',
       generate_training_circuits pi tol kernel circuit n
         fraction_non_clifford method_select method_replace sigma_select
         sigma_replace s = (r, s') →
       circuits s' !! circuit = Some c
       ∧ ∀ l c0, circuits s !! l = Some c0 → circuits s' !! l = Some c0).
Proof.
  intros Hobs Hc. split.
  - eexists _, _, _. split_and!;
      [by apply nterms_run|by apply qubit_indices_run|by apply nqubits_run
      |by apply matrix_run|].
    assert (preserved h (<[fresh (dom h) := ObjSet []]> h)) as Hpres
      by apply preserved_alloc.
    assert (is_observable (<[fresh (dom h) := ObjSet []]> h) self terms) as Hobs'
      by (by eapply preserved_is_observable).
    eexists _, _. split_and!;
      [by apply partition_run|done|done|by apply nterms_run
      |by apply qubit_indices_run].
  - intros r s' Hrun.
    pose proof (keeps_circuits_generate_training_circuits pi tol kernel circuit
                  n fraction_non_clifford method_select method_replace
                  sigma_select sigma_replace s) as Hkeep.
    rewrite Hrun in Hkeep. simpl in Hkeep. split; [by apply Hkeep|done].
Qed.

(** ** Determinism of the randomised operations *)

Lemma deterministic_gret {A} (a : A) : deterministic (gret a).
Proof. by intros s1 s2 Hs. Qed.

Lemma deterministic_graise {A} (e : Error) : deterministic (@graise A e).
Proof. by intros s1 s2 Hs. Qed.

Lemma deterministic_gbind {A B} (m : G A) (k : A → G B) :
  deterministic m → (∀ a, deterministic (k a)) → deterministic (gbind m k).
Proof.
  intros Hm Hk s1 s2 Hs. unfold gbind.
  destruct (Hm s1 s2 Hs) as [Hr Hs'].
  destruct (m s1) as [[a1|e1] s1'], (m s2) as [[a2|e2] s2'];
    simpl in *; simplify_eq; [by apply Hk|done].
Qed.

Lemma deterministic_random_raw : deterministic random_raw.
Proof.
  intros s1 s2 (Hraw & Hpos & Hcirc). unfold random_raw. simpl.
  rewrite Hpos, Hraw, Hcirc. by repeat split.
Qed.

Lemma deterministic_alloc_circuit (c : list Operation) :
  deterministic (alloc_circuit c).
Proof.
  intros s1 s2 (Hraw & Hpos & Hcirc). unfold alloc_circuit. simpl.
  rewrite Hcirc. by repeat split.
Qed.

Lemma deterministic_get_circuit (l : loc) : deterministic (get_circuit l).
Proof.
  intros s1 s2 Hs. pose proof Hs as (Hraw & Hpos & Hcirc).
  unfold get_circuit. rewrite Hcirc. by destruct (circuits s2 !! l).
Qed.

Lemma deterministic_gmapM {A B} (f : A → G B) (l : list A) :
  (∀ x, deterministic (f x)) → deterministic (gmapM f l).
Proof.
  intros Hf. induction l as [|x l IH]; simpl; [apply deterministic_gret|].
  apply deterministic_gbind; [done|]. intros y.
  apply deterministic_gbind; [done|]. intros ys. apply deterministic_gret.
Qed.

Lemma deterministic_random_choice {A} (d : A) (items : list (A * Q)) :
  deterministic (random_choice d items).
Proof.
  apply deterministic_gbind; [|intros u; apply deterministic_gret].
  apply deterministic_gbind; [apply deterministic_random_raw|].
  intros r. apply deterministic_gret.
Qed.

Lemma deterministic_choice_without_replacement (k : nat)
    (items : list (nat * Q)) :
  deterministic (choice_without_replacement k items).
Proof.
  revert items. induction k as [|k IH]; intros items; simpl;
    [apply deterministic_gret|].
  destruct items as [|[i0 w0] items]; [apply deterministic_graise|].
  apply deterministic_gbind; [apply deterministic_random_choice|]. intros i.
  apply deterministic_gbind; [apply IH|]. intros rest. apply deterministic_gret.
Qed.

Section Determinism.
Variable pi : Q.
Variable tol : Q.
Variable kernel : Q → Q → Q.

Lemma deterministic__select rz f method_select sigma_select :
  deterministic (_select pi kernel rz f method_select sigma_select).
Proof.
  unfold _select. repeat case_decide;
    auto using deterministic_graise, deterministic_choice_without_replacement.
Qed.

Lemma deterministic__replace angles method_replace sigma_select sigma_replace :
  deterministic
    (_replace pi kernel angles method_replace sigma_select sigma_replace).
Proof.
  unfold _replace. repeat case_decide;
    auto using deterministic_graise, deterministic_gret.
  - apply deterministic_gmapM. intros θ.
    apply deterministic_gbind; [|intros i; apply deterministic_gret].
    apply deterministic_gbind; [apply deterministic_random_raw|].
    intros r. apply deterministic_gret.
  - apply deterministic_gmapM. intros θ. apply deterministic_random_choice.
Qed.

Lemma deterministic__map_to_near_clifford circuit f method_select
    method_replace sigma_select sigma_replace :
  deterministic
    (_map_to_near_clifford pi tol kernel circuit f method_select method_replace
       sigma_select sigma_replace).
Proof.
  unfold _map_to_near_clifford.
  apply deterministic_gbind; [apply deterministic__select|]. intros cols.
  apply deterministic_gbind; [apply deterministic__replace|]. intros replaced.
  apply deterministic_gret.
Qed.

Lemma deterministic_generate_training_circuits circuit n f method_select
    method_replace sigma_select sigma_replace :
  deterministic
    (generate_training_circuits pi tol kernel circuit n f method_select
       method_replace sigma_select sigma_replace).
Proof.
  unfold generate_training_circuits.
  apply deterministic_gbind; [apply deterministic_get_circuit|]. intros c.
  induction n as [|n IH]; simpl; [apply deterministic_gret|].
  apply deterministic_gbind; [apply deterministic__map_to_near_clifford|].
  intros near.
  apply deterministic_gbind; [apply deterministic_alloc_circuit|]. intros l.
  apply deterministic_gbind; [apply IH|]. intros ls. apply deterministic_gret.
Qed.

End Determinism.

(** C8, as amended.  For one iteration order of sets, [partition] is
    deterministic: a second call on the same Observable returns the set of
    groups of the first call, and any two Observables whose term sets iterate
    in the same order, in whatever stores, get the same set of groups; two
    Observables built from the same sequence of terms are such.  The
    randomised operations are deterministic in the random state: from states
    that hold the same circuits and the same stream of random numbers at the
    same position, [_select], [_replace] and [generate_training_circuits]
    give the same outcome and leave such states. *)
Theorem operations_deterministic_for_fixed_iteration_order `{Scalar C}
    (set_layout : list (PauliString C) → list (PauliString C)) :
  (∀ l, set_layout l ≡ₚ remove_dups l) →
  (∀ h self terms, is_observable h self terms →
     ∃ groups h1 h2,
       partition set_layout self h = Ok (groups, h1)
       ∧ partition set_layout self h1 = Ok (groups, h2))
  ∧ (∀ h self h' self' terms,
       is_observable h self terms → is_observable h' self' terms →
       ∃ groups h1 h1',
         partition set_layout self h = Ok (groups, h1)
         ∧ partition set_layout self' h' = Ok (groups, h1'))
  ∧ (∀ paulis h h',
       ∃ self self' h1 h1' groups h2 h2',
         Observable_init set_layout paulis h = Ok (self, h1)
         ∧ Observable_init set_layout paulis h' = Ok (self', h1')
         ∧ partition set_layout self h1 = Ok (groups, h2)
         ∧ partition set_layout self' h1' = Ok (groups, h2'))
  ∧ (∀ pi tol kernel angles circuit n f method_select method_replace
       sigma_select sigma_replace,
       deterministic (_select pi kernel angles f method_select sigma_select)
       ∧ deterministic (_replace pi kernel angles method_replace sigma_select
                          sigma_replace)
       ∧ deterministic (generate_training_circuits pi tol kernel circuit n f
                          method_select method_replace sigma_select
                          sigma_replace)).
Proof.
  intros set_layout_perm. split_and!.
  - intros h self terms Hobs. eexists _, _, _. split.
    + by apply partition_run.
    + apply partition_run.
      eapply preserved_is_observable; [apply preserved_alloc|done].
  - intros h self h' self' terms Hobs Hobs'. eexists _, _, _.
    split; by apply partition_run.
  - intros paulis h h'.
    destruct (Observable_init_run set_layout set_layout_perm h paulis)
      as (self & h1 & Hinit & Hobs & _).
    destruct (Observable_init_run set_layout set_layout_perm h' paulis)
      as (self' & h1' & Hinit' & Hobs' & _).
    eexists self, self', h1, h1', _, _, _.
    split_and!; [done|done|by apply partition_run|by apply partition_run].
  - intros. split_and!.
    + apply deterministic__select.
    + apply deterministic__replace.
    + apply deterministic_generate_training_circuits.
Qed.

(** * Further properties of [Observable] *)

Section MoreFirstFit.
Context `{Scalar C}.
Implicit Types (t p q : PauliString C) (g : list (PauliString C))
               (groups : list (list (PauliString C))).

Lemma can_be_measured_with_false_sym p q :
  can_be_measured_with p q = false → can_be_measured_with q p = false.
Proof.
  intros Hpq. destruct (can_be_measured_with q p) eqn:Hqp; [|done].
  apply can_be_measured_with_sym in Hqp. congruence.
Qed.

Lemma separated_sym g1 g2 : separated g1 g2 → separated g2 g1.
Proof.
  intros (p & q & Hp & Hq & Hpq). exists q, p.
  auto using can_be_measured_with_false_sym.
Qed.

Lemma fits_false t g :
  fits t g = false → ∃ m, m ∈ g ∧ can_be_measured_with t m = false.
Proof.
  unfold fits. induction g as [|m g IH]; [done|]. cbn [forallb].
  intros [Hm|Hg]%andb_false_iff.
  - exists m. split; [by left|done].
  - destruct (IH Hg) as (m' & Hm' & Hfalse). exists m'. split; [by right|done].
Qed.

Lemma first_fit_place_Forall (P : list (PauliString C) → Prop) t groups :
  (∀ g, P g → P (g ++ [t])) → P [t] →
  Forall P groups → Forall P (first_fit_place t groups).
Proof.
  intros Hgrow Hnew. induction 1 as [|g groups Hg Hgroups IH]; cbn [first_fit_place].
  - by repeat constructor.
  - destruct (fits t g); constructor; auto.
Qed.

Lemma first_fit_place_separated t groups :
  all_separated groups → all_separated (first_fit_place t groups).
Proof.
  induction 1 as [|g groups Hg Hgroups IH]; cbn [first_fit_place].
  - constructor; constructor.
  - destruct (fits t g) eqn:Hfit.
    + constructor; [|done]. eapply Forall_impl; [exact Hg|].
      intros g' (p & q & Hp & Hq & Hpq). exists p, q.
      split_and!; [|done..]. apply elem_of_app. by left.
    + constructor; [|done]. apply first_fit_place_Forall; [| |done].
      * intros g' (p & q & Hp & Hq & Hpq). exists p, q.
        split_and!; [done| |done]. apply elem_of_app. by left.
      * destruct (fits_false t g Hfit) as (m & Hm & Hfalse).
        exists m, t. split_and!; [done|by left|].
        by apply can_be_measured_with_false_sym.
Qed.

Lemma first_fit_separated (terms : list (PauliString C)) :
  all_separated (first_fit terms).
Proof.
  unfold first_fit.
  assert (∀ groups, all_separated groups →
            all_separated (foldl (λ groups t, first_fit_place t groups)
                             groups terms)) as Hfold.
  { induction terms as [|t terms IH]; intros groups Hgroups; [done|].
    apply IH. by apply first_fit_place_separated. }
  apply Hfold. constructor.
Qed.

Lemma all_separated_lookup groups i j g1 g2 :
  all_separated groups → i ≠ j →
  groups !! i = Some g1 → groups !! j = Some g2 → separated g1 g2.
Proof.
  intros Hsep. revert i j.
  induction Hsep as [|g groups Hg Hgroups IH]; intros i j Hne Hi Hj; [done|].
  destruct i as [|i], j as [|j]; simplify_eq/=.
  - rewrite Forall_forall in Hg. eapply Hg, list_elem_of_lookup_2, Hj.
  - apply separated_sym. rewrite Forall_forall in Hg.
    eapply Hg, list_elem_of_lookup_2, Hi.
  - eapply (IH i j); [congruence|done..].
Qed.

Lemma length_join_nonempty {A} (ls : list (list A)) :
  Forall (λ l, l ≠ []) ls → length ls ≤ length (mjoin ls).
Proof.
  induction 1 as [|l ls Hl Hls IH]; [done|].
  destruct l as [|x l]; [done|]. simpl in *. rewrite length_app. lia.
Qed.

Lemma sum_sizes_join groups :
  NoDup (mjoin groups) →
  sum_list (size <$> ((λ g, list_to_set g : gset (PauliString C)) <$> groups))
  = length (mjoin groups).
Proof.
  induction groups as [|g groups IH]; [done|].
  cbn [mjoin list_join]. intros (Hg & _ & Hgroups)%NoDup_app.
  rewrite !fmap_cons. cbn [sum_list_with]. rewrite length_app, IH by done.
  unfold id. by rewrite size_list_to_set.
Qed.

(** The groups of a duplicate-free grouping without empty group are
    different sets. *)
Lemma NoDup_group_sets groups :
  NoDup (mjoin groups) → Forall (λ g, g ≠ []) groups →
  NoDup ((λ g, list_to_set g : gset (PauliString C)) <$> groups).
Proof.
  intros Hnd Hne. apply NoDup_alt. intros i j G Hi Hj.
  rewrite list_lookup_fmap in Hi, Hj.
  destruct (groups !! i) as [gi|] eqn:Hgi; [|done].
  destruct (groups !! j) as [gj|] eqn:Hgj; [|done].
  simpl in Hi, Hj. injection Hi as <-. injection Hj as Hj.
  rewrite Forall_forall in Hne.
  pose proof (Hne gi (list_elem_of_lookup_2 _ _ _ Hgi)) as Hgi_ne.
  destruct gi as [|t gi]; [done|].
  eapply (concat_NoDup_disjoint groups i j _ _ t); [done..|by left|].
  apply (elem_of_list_to_set (C := gset (PauliString C))).
  rewrite Hj. apply elem_of_list_to_set. by left.
Qed.

(** Terms that can all be measured together end in one group. *)
Lemma foldl_first_fit_place_all_fit g (terms : list (PauliString C)) :
  (∀ p q, p ∈ g ++ terms → q ∈ g ++ terms → can_be_measured_with p q = true) →
  foldl (λ groups t, first_fit_place t groups) [g] terms = [g ++ terms].
Proof.
  revert g. induction terms as [|t terms IH]; intros g Hall.
  - by rewrite app_nil_r.
  - cbn [foldl first_fit_place].
    assert (fits t g = true) as ->.
    { unfold fits. apply forallb_forall. intros m Hm%list_elem_of_In.
      apply Hall; rewrite elem_of_app, ?elem_of_cons; auto. }
    rewrite IH, <-app_assoc; [done|].
    intros p q Hp Hq. rewrite <-app_assoc in Hp, Hq. by apply Hall.
Qed.

(** Terms none of which can be measured with another stay alone. *)
Lemma foldl_first_fit_place_none_fit (done terms : list (PauliString C)) :
  NoDup (done ++ terms) →
  (∀ p q, p ∈ done ++ terms → q ∈ done ++ terms → p ≠ q →
          can_be_measured_with p q = false) →
  foldl (λ groups t, first_fit_place t groups) ((λ t, [t]) <$> done) terms
  = (λ t, [t]) <$> (done ++ terms).
Proof.
  revert done. induction terms as [|t terms IH]; intros done Hnd Hall.
  - by rewrite app_nil_r.
  - cbn [foldl].
    assert (first_fit_place t ((λ t, [t]) <$> done)
            = (λ t, [t]) <$> (done ++ [t])) as ->.
    { rewrite fmap_app. cbn [fmap list_fmap].
      assert (∀ m, m ∈ done → can_be_measured_with t m = false) as Hdone.
      { intros m Hm. apply Hall.
        - apply elem_of_app. right. by left.
        - apply elem_of_app. by left.
        - intros <-. apply NoDup_app in Hnd as (_ & Hdisj & _).
          apply (Hdisj t Hm). by left. }
      clear Hnd Hall IH. induction done as [|m done IH]; [done|].
      cbn [fmap list_fmap first_fit_place app]. unfold fits. cbn [forallb].
      rewrite Hdone by (by left). cbn [andb]. f_equal.
      apply IH. intros m' Hm'. apply Hdone. by right. }
    rewrite IH; rewrite <-?app_assoc; done.
Qed.

End MoreFirstFit.

Lemma StronglySorted_le_lt (l : list Z) :
  StronglySorted Z.le l → NoDup l → StronglySorted Z.lt l.
Proof.
  induction 1 as [|x l Hl IH Hx]; intros Hnd; [constructor|].
  apply NoDup_cons in Hnd as [Hx' Hnd]. constructor; [by apply IH|].
  rewrite Forall_forall in Hx |- *. intros y Hy.
  specialize (Hx y Hy). assert (x ≠ y) by (by intros ->). lia.
Qed.

Lemma foldl_permutation_swap {A B} (f : A → B → A) (l l' : list B) (a : A) :
  (∀ a x y, f (f a x) y = f (f a y) x) → l ≡ₚ l' → foldl f a l = foldl f a l'.
Proof.
  intros Hswap Hperm. revert a.
  induction Hperm as [|x l l' Hperm IH|x y l|l l' l'' _ IH1 _ IH2]; intros a;
    simpl; [done|apply IH|by rewrite Hswap|by rewrite IH1].
Qed.

Lemma zip_with_swap {A B} (f : A → B → A) (l : list A) (k1 k2 : list B) :
  (∀ a x y, f (f a x) y = f (f a y) x) →
  zip_with f (zip_with f l k1) k2 = zip_with f (zip_with f l k2) k1.
Proof.
  intros Hswap. revert k1 k2.
  induction l as [|a l IH]; intros [|x k1] [|y k2]; simpl; try done.
  by rewrite Hswap, IH.
Qed.

Lemma length_remove_dups {A} `{EqDecision A} (l : list A) :
  length (remove_dups l) ≤ length l.
Proof.
  induction l as [|x l IH]; [done|]. cbn [remove_dups length].
  destruct (decide_rel (∈) x l); simpl; lia.
Qed.

Lemma remove_dups_NoDup {A} `{EqDecision A} (l : list A) :
  NoDup l → remove_dups l = l.
Proof.
  induction 1 as [|x l Hx Hl IH]; [done|]. cbn [remove_dups].
  destruct (decide_rel (∈) x l); [done|]. by rewrite IH.
Qed.

Section ObservableExtras.
Context `{Scalar C}.
Implicit Types (h : gmap loc (Obj C)) (terms : list (PauliString C)).

Lemma sorted_qubits_same terms1 terms2 :
  (∀ t, t ∈ terms1 ↔ t ∈ terms2) → sorted_qubits terms1 = sorted_qubits terms2.
Proof.
  intros Hsame. unfold sorted_qubits. do 2 f_equal. apply set_eq. intros q.
  rewrite !elem_of_union_list. setoid_rewrite list_elem_of_fmap. split.
  - intros (X & (t & -> & Ht) & Hq). exists (pauli_qubits t).
    split; [|done]. exists t. split; [done|]. by apply Hsame.
  - intros (X & (t & -> & Ht) & Hq). exists (pauli_qubits t).
    split; [|done]. exists t. split; [done|]. by apply Hsame.
Qed.

(** X1.  The constructor of [Observable] keeps each distinct term once: the
    terms of the new Observable are those given, [nterms] is the number of
    distinct terms, at most the number of arguments and equal to it when no
    term is given twice.  No object that existed is changed. *)
Theorem Observable_init_collapses_duplicates
    (set_layout : list (PauliString C) → list (PauliString C))
    (paulis : list (PauliString C)) h :
  (∀ l, set_layout l ≡ₚ remove_dups l) →
  ∃ self h' terms,
    Observable_init set_layout paulis h = Ok (self, h')
    ∧ is_observable h' self terms
    ∧ (∀ t, t ∈ terms ↔ t ∈ paulis)
    ∧ nterms self h' = Ok (length (remove_dups paulis), h')
    ∧ length (remove_dups paulis) ≤ length paulis
    ∧ (NoDup paulis → nterms self h' = Ok (length paulis, h'))
    ∧ preserved h h'.
Proof.
  intros Hperm.
  destruct (Observable_init_run set_layout Hperm h paulis)
    as (self & h' & Hinit & Hobs & Hpres & _).
  exists self, h', (set_layout paulis).
  pose proof (nterms_run _ _ _ Hobs) as Hn.
  rewrite (Permutation_length (Hperm paulis)) in Hn.
  split_and!; [done|done| |done| | |done].
  - intros t. by apply set_layout_elem_of.
  - apply length_remove_dups.
  - intros Hnd. by rewrite (remove_dups_NoDup paulis Hnd) in Hn.
Qed.

(** X2.  [qubit_indices] lists the qubits that the terms act on in strictly
    increasing order, each once, and [nqubits] is the number of these
    qubits. *)
Theorem qubit_indices_strictly_increasing h self terms :
  is_observable h self terms →
  ∃ qs idx,
    _qubits self h = Ok (qs, h)
    ∧ qubit_indices self h = Ok (idx, h)
    ∧ nqubits self h = Ok (size qs, h)
    ∧ StronglySorted Z.lt idx
    ∧ (∀ q, q ∈ idx ↔ q ∈ qs)
    ∧ (∀ q, q ∈ qs ↔ ∃ t, t ∈ terms ∧ q ∈ pauli_qubits t).
Proof.
  intros Hobs. exists (⋃ (pauli_qubits <$> terms)), (sorted_qubits terms).
  split_and!.
  - by apply _qubits_run.
  - by apply qubit_indices_run.
  - rewrite (nqubits_run _ _ _ Hobs). do 2 f_equal.
    unfold size, set_size. simpl. apply Permutation_length, merge_sort_Permutation.
  - apply StronglySorted_le_lt; [|apply sorted_qubits_NoDup].
    apply Sorted_StronglySorted; [apply _|apply sorted_qubits_Sorted].
  - intros q. unfold sorted_qubits.
    by rewrite merge_sort_Permutation, elem_of_elements.
  - intros q. rewrite elem_of_union_list. setoid_rewrite list_elem_of_fmap.
    split.
    + intros (X & (t & -> & Ht) & Hq). eauto.
    + intros (t & Ht & Hq). eauto.
Qed.

(** X3.  [nterms], [qubit_indices] and [nqubits] depend on the set of terms
    only: two Observables that hold the same terms, in whatever iteration
    order and in whatever stores, return the same values. *)
Theorem qubit_indices_independent_of_iteration_order
    h1 self1 terms1 h2 self2 terms2 :
  is_observable h1 self1 terms1 → is_observable h2 self2 terms2 →
  (∀ t, t ∈ terms1 ↔ t ∈ terms2) →
  ∃ k idx,
    nterms self1 h1 = Ok (k, h1) ∧ nterms self2 h2 = Ok (k, h2)
    ∧ qubit_indices self1 h1 = Ok (idx, h1)
    ∧ qubit_indices self2 h2 = Ok (idx, h2)
    ∧ nqubits self1 h1 = Ok (length idx, h1)
    ∧ nqubits self2 h2 = Ok (length idx, h2).
Proof.
  intros Hobs1 Hobs2 Hsame. exists (length terms1), (sorted_qubits terms1).
  assert (terms1 ≡ₚ terms2) as Hperm.
  { destruct Hobs1 as (_ & _ & _ & Hnd1), Hobs2 as (_ & _ & _ & Hnd2).
    by apply NoDup_Permutation. }
  split_and!.
  - by apply nterms_run.
  - rewrite (Permutation_length Hperm). by apply nterms_run.
  - by apply qubit_indices_run.
  - rewrite (sorted_qubits_same terms1 terms2 Hsame). by apply qubit_indices_run.
  - by apply nqubits_run.
  - rewrite (sorted_qubits_same terms1 terms2 Hsame). by apply nqubits_run.
Qed.

(** X4.  Where the addition of the [dtype] is commutative and associative,
    [matrix] depends on the set of terms only: two Observables that hold the
    same terms, in whatever iteration order, have the same matrix. *)
Theorem matrix_independent_of_iteration_order
    h1 self1 terms1 h2 self2 terms2 :
  (∀ a b : C, cadd a b = cadd b a) →
  (∀ a b c : C, cadd a (cadd b c) = cadd (cadd a b) c) →
  is_observable h1 self1 terms1 → is_observable h2 self2 terms2 →
  (∀ t, t ∈ terms1 ↔ t ∈ terms2) →
  ∃ Mx, matrix self1 h1 = Ok (Mx, h1) ∧ matrix self2 h2 = Ok (Mx, h2).
Proof.
  intros Hcomm Hassoc Hobs1 Hobs2 Hsame. eexists. split; [by apply matrix_run|].
  rewrite (matrix_run _ _ _ Hobs2), <-(sorted_qubits_same terms1 terms2 Hsame).
  do 2 f_equal. unfold matrix_sum. symmetry. apply foldl_permutation_swap.
  - intros A X Y. unfold matrix_add. apply zip_with_swap.
    intros a x y. apply zip_with_swap. intros u v w.
    by rewrite <-!Hassoc, (Hcomm v w).
  - apply fmap_Permutation.
    destruct Hobs1 as (_ & _ & _ & Hnd1), Hobs2 as (_ & _ & _ & Hnd2).
    by apply NoDup_Permutation.
Qed.

(** X5.  No two groups that [partition] returns can be merged: of any two
    different groups, some term of the one cannot be measured with some term
    of the other. *)
Theorem partition_groups_cannot_be_merged
    (set_layout : list (PauliString C) → list (PauliString C)) h self terms :
  is_observable h self terms →
  ∃ groups h',
    partition set_layout self h = Ok (groups, h')
    ∧ ∀ G1 G2, G1 ∈ groups → G2 ∈ groups → G1 ≠ G2 →
        ∃ p q, p ∈ G1 ∧ q ∈ G2 ∧ can_be_measured_with p q = false.
Proof.
  intros Hobs. eexists _, _. split; [by apply partition_run|].
  intros G1 G2 (g1 & Hg1 & ->)%elem_of_frozensets
    (g2 & Hg2 & ->)%elem_of_frozensets Hne.
  apply list_elem_of_lookup in Hg1 as [i Hi], Hg2 as [j Hj].
  assert (i ≠ j) as Hij by (intros ->; congruence).
  destruct (all_separated_lookup _ i j g1 g2
              (first_fit_separated (set_layout terms)) Hij Hi Hj)
    as (p & q & Hp & Hq & Hpq).
  exists p, q. by rewrite !elem_of_list_to_set.
Qed.

Section WithLayout.
Variable set_layout : list (PauliString C) → list (PauliString C).
Hypothesis set_layout_perm : ∀ l, set_layout l ≡ₚ remove_dups l.

(** X6.  [partition] returns no empty group and at most [nterms] groups, at
    least one when there is a term; the sizes of the groups add up to
    [nterms]. *)
Theorem partition_group_count h self terms :
  is_observable h self terms →
  ∃ groups h',
    partition set_layout self h = Ok (groups, h')
    ∧ nterms self h' = Ok (length terms, h')
    ∧ (∅ ∉ groups)
    ∧ size groups ≤ length terms
    ∧ (terms ≠ [] → 0 < size groups)
    ∧ sum_list (size <$> elements groups) = length terms.
Proof.
  intros Hobs. eexists _, _. split; [by apply partition_run|].
  assert (is_observable (<[fresh (dom h) := ObjSet []]> h) self terms) as Hobs'.
  { eapply preserved_is_observable; [apply preserved_alloc|done]. }
  destruct Hobs as (_ & _ & _ & Hnd).
  set (order := set_layout terms).
  assert (order ≡ₚ terms) as Horder.
  { apply NoDup_Permutation; [by apply set_layout_NoDup|done|].
    intros t. by apply set_layout_elem_of. }
  destruct (first_fit_invariants order) as (_ & Hne & Hperm).
  set (plists := first_fit order) in *.
  assert (NoDup (mjoin plists)) as Hndj.
  { rewrite Hperm. by apply set_layout_NoDup. }
  pose proof (NoDup_group_sets plists Hndj Hne) as Hsets.
  assert (size (frozensets plists) = length plists) as Hsize.
  { unfold frozensets. by rewrite size_list_to_set, length_fmap. }
  pose proof (length_join_nonempty plists Hne) as Hlen.
  rewrite Hperm, Horder in Hlen.
  split_and!.
  - by apply nterms_run.
  - intros (g & Hg & Hempty)%elem_of_frozensets.
    rewrite Forall_forall in Hne. specialize (Hne g Hg).
    destruct g as [|t g]; [done|].
    assert (t ∈ (∅ : gset (PauliString C))) as Ht; [|by apply elem_of_empty in Ht].
    rewrite Hempty. apply elem_of_list_to_set. by left.
  - lia.
  - intros Hterms. rewrite Hsize.
    destruct plists as [|g plists']; [|simpl; lia].
    simpl in Hperm. rewrite Horder in Hperm.
    apply Permutation_nil_l in Hperm. done.
  - unfold frozensets. rewrite elements_list_to_set by done.
    rewrite sum_sizes_join by done. by rewrite Hperm, Horder.
Qed.

(** X7.  When all the terms can be measured with one another, [partition]
    returns one group, which holds them all. *)
Theorem partition_of_compatible_terms h self terms :
  is_observable h self terms → terms ≠ [] →
  (∀ p q, p ∈ terms → q ∈ terms → can_be_measured_with p q = true) →
  ∃ h', partition set_layout self h = Ok ({[ list_to_set terms ]}, h').
Proof.
  intros Hobs Hterms Hall. eexists. rewrite (partition_run _ _ _ _ Hobs).
  do 2 f_equal.
  set (order := set_layout terms).
  assert (∀ t, t ∈ order ↔ t ∈ terms) as Helem.
  { intros t. by apply set_layout_elem_of. }
  assert (list_to_set order = (list_to_set terms : gset (PauliString C))) as <-.
  { apply set_eq. intros t. by rewrite !elem_of_list_to_set. }
  destruct order as [|t0 order'] eqn:Horder.
  { destruct terms as [|t terms']; [done|].
    assert (t ∈ @nil (PauliString C)) as Ht by (apply Helem; by left).
    by apply elem_of_nil in Ht. }
  unfold first_fit. cbn [foldl first_fit_place].
  rewrite (foldl_first_fit_place_all_fit [t0] order').
  - unfold frozensets. cbn [fmap list_fmap app].
    apply (list_to_set_singleton_L (C := gset (gset (PauliString C)))).
  - intros p q Hp Hq. apply Hall; by apply Helem.
Qed.

(** X8.  When no term can be measured with another, [partition] returns as
    many groups as there are terms, each holding one term. *)
Theorem partition_of_incompatible_terms h self terms :
  is_observable h self terms →
  (∀ p q, p ∈ terms → q ∈ terms → p ≠ q → can_be_measured_with p q = false) →
  ∃ h',
    partition set_layout self h
    = Ok (list_to_set ((λ t, {[ t ]}) <$> terms), h')
    ∧ size (list_to_set ((λ t, {[ t ]}) <$> terms)
              : gset (gset (PauliString C))) = length terms.
Proof.
  intros Hobs Hall. eexists. split.
  - rewrite (partition_run _ _ _ _ Hobs). do 2 f_equal.
    destruct Hobs as (_ & _ & _ & Hnd).
    set (order := set_layout terms).
    assert (order ≡ₚ terms) as Horder.
    { apply NoDup_Permutation; [by apply set_layout_NoDup|done|].
      intros t. by apply set_layout_elem_of. }
    pose proof (foldl_first_fit_place_none_fit [] order) as Hfold.
    cbn [fmap list_fmap app] in Hfold. unfold first_fit. rewrite Hfold.
    + unfold frozensets. rewrite <-list_fmap_compose.
      rewrite <-Horder. f_equal. apply list_fmap_ext. intros i t _.
      apply (list_to_set_singleton_L (C := gset (PauliString C))).
    + by apply set_layout_NoDup.
    + intros p q Hp Hq. apply Hall; by rewrite <-Horder.
  - destruct Hobs as (_ & _ & _ & Hnd).
    rewrite size_list_to_set, length_fmap; [done|].
    apply (NoDup_fmap_2 _). done.
Qed.

End WithLayout.

End ObservableExtras.

(** * Properties of [qiskit_circuit_transpilation] *)

Lemma item_Returns {A} (l : list A) (i : nat) :
  i < length l → ∃ x, item l i = Returns x ∧ l !! i = Some x.
Proof.
  intros Hi. destruct (lookup_lt_is_Some_2 l i Hi) as [x Hx].
  exists x. unfold item. by rewrite Hx.
Qed.

Section TranspilationFacts.
Variable pi : Q.

(** The sequence of [if]s of the loop body against the decomposition of one
    instruction. *)
Lemma transpilation_body_decomposed instr circ_new :
  transpilation_body pi instr circ_new
  = let? o := decomposed pi instr in Returns (circ_new ++ option_list o).
Proof.
  unfold transpilation_body, decomposed, item.
  destruct (instr_qubits instr !! 0) as [q0|];
    destruct (instr_qubits instr !! 1) as [q1|];
    destruct (gate_params instr !! 0) as [p0|];
    destruct (instr_clbits instr !! 0) as [c0|];
    destruct (decide (gate_name instr = "cx"));
    destruct (decide (gate_name instr = "rz"));
    destruct (decide (gate_name instr = "sx"));
    destruct (decide (gate_name instr = "x"));
    destruct (decide (gate_name instr = "measure"));
    try congruence; cbn [outcome_bind option_list];
    try destruct (Qeq_bool (mod_2pi pi p0) 0);
    cbn [outcome_bind option_list negb]; by rewrite ?app_nil_r.
Qed.

(** The loop over the indices against the decomposition of the
    instructions. *)
Lemma transpilation_loop_decomposed_all pre rest circ_new :
  transpilation_loop pi (pre ++ rest) (seq (length pre) (length rest)) circ_new
  = let? os := decomposed_all pi rest in Returns (circ_new ++ os).
Proof.
  revert pre circ_new. induction rest as [|instr rest IH]; intros pre circ_new.
  - simpl. by rewrite app_nil_r.
  - cbn [length seq transpilation_loop decomposed_all].
    unfold item at 1. rewrite lookup_app_r, Nat.sub_diag by lia.
    cbn [lookup list_lookup outcome_bind].
    rewrite transpilation_body_decomposed.
    destruct (decomposed pi instr) as [o|e]; [|done].
    cbn [outcome_bind].
    specialize (IH (pre ++ [instr]) (circ_new ++ option_list o)).
    rewrite <-app_assoc, length_app, Nat.add_1_r in IH. cbn [app] in IH.
    rewrite IH. destruct (decomposed_all pi rest) as [os|e]; [|done].
    cbn [outcome_bind]. by rewrite <-app_assoc.
Qed.

Lemma decomposed_has_operands instr :
  has_operands instr → ∃ o, decomposed pi instr = Returns o.
Proof.
  intros (Hcx & Hrz & Hsx & Hx & Hm). unfold decomposed.
  repeat case_decide.
  - destruct (item_Returns (instr_qubits instr) 0) as (c & -> & _);
      [specialize (Hcx ltac:(done)); lia|].
    destruct (item_Returns (instr_qubits instr) 1) as (t & -> & _);
      [specialize (Hcx ltac:(done)); lia|].
    by eexists.
  - destruct (Hrz ltac:(done)) as [Hp Hq].
    destruct (item_Returns (gate_params instr) 0) as (p & -> & _); [lia|].
    destruct (item_Returns (instr_qubits instr) 0) as (q & -> & _); [lia|].
    simpl. destruct (Qeq_bool _ _); by eexists.
  - destruct (item_Returns (instr_qubits instr) 0) as (q & -> & _);
      [specialize (Hsx ltac:(done)); lia|].
    by eexists.
  - destruct (item_Returns (instr_qubits instr) 0) as (q & -> & _);
      [specialize (Hx ltac:(done)); lia|].
    by eexists.
  - destruct (Hm ltac:(done)) as [Hq Hc].
    destruct (item_Returns (instr_qubits instr) 0) as (q & -> & _); [lia|].
    destruct (item_Returns (instr_clbits instr) 0) as (c & -> & _); [lia|].
    by eexists.
  - by eexists.
Qed.

Lemma decomposed_all_has_operands data :
  Forall has_operands data →
  ∃ os, decomposed_all pi data = Returns os ∧ length os ≤ length data.
Proof.
  induction 1 as [|instr data Hinstr Hdata (os & Hos & Hlen)].
  - by exists [].
  - destruct (decomposed_has_operands instr Hinstr) as [o Ho].
    exists (option_list o ++ os). cbn [decomposed_all]. rewrite Ho, Hos.
    split; [done|]. rewrite length_app. destruct o; simpl; lia.
Qed.

(** The shapes of what one instruction becomes. *)
Lemma decomposed_Some instr o :
  decomposed pi instr = Returns (Some o) →
  (gate_name instr = "cx"
   ∧ ∃ control target, instr_qubits instr !! 0 = Some control
       ∧ instr_qubits instr !! 1 = Some target
       ∧ o = instr_cx control target)
  ∨ (gate_name instr = "rz"
     ∧ ∃ param qubit, gate_params instr !! 0 = Some param
         ∧ instr_qubits instr !! 0 = Some qubit
         ∧ Qeq_bool (mod_2pi pi param) 0 = false
         ∧ o = instr_rz (mod_2pi pi param) qubit)
  ∨ (gate_name instr = "sx"
     ∧ ∃ qubit, instr_qubits instr !! 0 = Some qubit
         ∧ o = instr_rx (pi / 2) qubit)
  ∨ (gate_name instr = "x"
     ∧ ∃ qubit, instr_qubits instr !! 0 = Some qubit ∧ o = instr_x qubit)
  ∨ (gate_name instr = "measure"
     ∧ ∃ qubit cbit, instr_qubits instr !! 0 = Some qubit
         ∧ instr_clbits instr !! 0 = Some cbit
         ∧ o = instr_measure qubit cbit).
Proof.
  unfold decomposed, item. repeat case_decide.
  - destruct (instr_qubits instr !! 0) as [c|] eqn:Hc; [|done].
    destruct (instr_qubits instr !! 1) as [t|] eqn:Ht; [|done].
    intros [= <-]. left. eauto 10.
  - destruct (gate_params instr !! 0) as [p|] eqn:Hp; [|done]. simpl.
    destruct (Qeq_bool (mod_2pi pi p) 0) eqn:Hz; [done|].
    destruct (instr_qubits instr !! 0) as [q|] eqn:Hq; [|done].
    intros [= <-]. right. left. eauto 10.
  - destruct (instr_qubits instr !! 0) as [q|] eqn:Hq; [|done].
    intros [= <-]. do 2 right. left. eauto 10.
  - destruct (instr_qubits instr !! 0) as [q|] eqn:Hq; [|done].
    intros [= <-]. do 3 right. left. eauto 10.
  - destruct (instr_qubits instr !! 0) as [q|] eqn:Hq; [|done]. simpl.
    destruct (instr_clbits instr !! 0) as [c|] eqn:Hc; [|done].
    intros [= <-]. do 4 right. eauto 10.
  - done.
Qed.

Lemma decomposed_Some_is_kept instr o :
  decomposed pi instr = Returns (Some o) → is_kept pi instr = true.
Proof.
  intros Ho. unfold is_kept.
  destruct (decomposed_Some instr o Ho)
    as [[Hn _]|[(Hn & p & q & Hp & _ & Hz & _)|[[Hn _]|[[Hn _]|[Hn _]]]]];
    rewrite Hn; [done| |done..].
  rewrite Hp, Hz. done.
Qed.

Lemma decomposed_None_is_kept instr :
  decomposed pi instr = Returns None → is_kept pi instr = false.
Proof.
  unfold decomposed, is_kept, item.
  destruct (decide (gate_name instr = "cx")) as [Hcx|Hcx].
  { destruct (instr_qubits instr !! 0), (instr_qubits instr !! 1); done. }
  destruct (decide (gate_name instr = "rz")) as [Hrz|Hrz].
  { rewrite Hrz. destruct (gate_params instr !! 0) as [p|]; [|done]. simpl.
    destruct (Qeq_bool (mod_2pi pi p) 0); [done|].
    destruct (instr_qubits instr !! 0); done. }
  destruct (decide (gate_name instr = "sx")) as [Hsx|Hsx].
  { destruct (instr_qubits instr !! 0); done. }
  destruct (decide (gate_name instr = "x")) as [Hx|Hx].
  { destruct (instr_qubits instr !! 0); done. }
  destruct (decide (gate_name instr = "measure")) as [Hm|Hm].
  { destruct (instr_qubits instr !! 0), (instr_clbits instr !! 0); done. }
  intros _. rewrite (bool_decide_eq_false_2 (gate_name instr = "rz")) by done.
  rewrite andb_false_l, orb_false_r. apply bool_decide_eq_false_2.
  rewrite !elem_of_cons, elem_of_nil. tauto.
Qed.

Lemma decomposed_Some_operands instr o :
  decomposed pi instr = Returns (Some o) →
  instr_qubits o ⊆ instr_qubits instr ∧ instr_clbits o ⊆ instr_clbits instr.
Proof.
  intros Ho.
  destruct (decomposed_Some instr o Ho)
    as [(_ & c & t & Hc & Ht & ->)
       |[(_ & p & q & _ & Hq & _ & ->)
        |[(_ & q & Hq & ->)|[(_ & q & Hq & ->)|(_ & q & c & Hq & Hc & ->)]]]];
    simpl; split; intros x; rewrite ?elem_of_cons, ?elem_of_nil;
    intros Hx; destruct_or?; subst; try done;
    by eapply list_elem_of_lookup_2.
Qed.

Lemma decomposed_all_filter data os :
  decomposed_all pi data = Returns os →
  Forall2 (λ instr o, decomposed pi instr = Returns (Some o))
    (filter (λ instr, is_kept pi instr) data) os.
Proof.
  revert os. induction data as [|instr data IH]; intros os.
  - intros [= <-]. constructor.
  - cbn [decomposed_all].
    destruct (decomposed pi instr) as [o|e] eqn:Ho; [|done].
    cbn [outcome_bind].
    destruct (decomposed_all pi data) as [os'|e]; [|done].
    cbn [outcome_bind]. intros [= <-].
    specialize (IH os' eq_refl). destruct o as [o|]; simpl.
    + rewrite filter_cons_True
        by (by rewrite (decomposed_Some_is_kept instr o Ho)).
      by constructor.
    + rewrite filter_cons_False
        by (rewrite (decomposed_None_is_kept instr Ho); exact id).
      done.
Qed.

Lemma decomposed_Some_in_gate_set instr o :
  decomposed pi instr = Returns (Some o) → in_gate_set pi o.
Proof.
  intros Ho. unfold in_gate_set.
  destruct (decomposed_Some instr o Ho)
    as [(_ & c & t & _ & _ & ->)
       |[(_ & p & q & _ & _ & Hz & ->)
        |[(_ & q & _ & ->)|[(_ & q & _ & ->)|(_ & q & c & _ & _ & ->)]]]];
    [eauto|right; left|eauto 10..].
  exists (mod_2pi pi p), q. split; [done|].
  intros Heq. apply Qeq_bool_iff in Heq. congruence.
Qed.

End TranspilationFacts.

(** X9.  [qiskit_circuit_transpilation] translates the instructions of the
    transpiled circuit one after the other and raises where the first
    translation raises.  When every instruction has the operands its gate
    needs the call returns: a circuit with the numbers of qubits and of
    classical bits of the transpiled circuit and with at most as many
    instructions. *)
Theorem qiskit_circuit_transpilation_returns (pi : Q)
    (transpile : QuantumCircuit → QuantumCircuit) (circ : QuantumCircuit) :
  qiskit_circuit_transpilation pi transpile circ
  = (let? data := decomposed_all pi (qc_data (transpile circ)) in
     Returns (MkQuantumCircuit (qc_qubits (transpile circ))
                (qc_clbits (transpile circ)) data))
  ∧ (Forall has_operands (qc_data (transpile circ)) →
     ∃ circ_new,
       qiskit_circuit_transpilation pi transpile circ = Returns circ_new
       ∧ qc_qubits circ_new = qc_qubits (transpile circ)
       ∧ qc_clbits circ_new = qc_clbits (transpile circ)
       ∧ length (qc_data circ_new) ≤ length (qc_data (transpile circ))).
Proof.
  assert (qiskit_circuit_transpilation pi transpile circ
          = (let? data := decomposed_all pi (qc_data (transpile circ)) in
             Returns (MkQuantumCircuit (qc_qubits (transpile circ))
                        (qc_clbits (transpile circ)) data))) as Heq.
  { unfold qiskit_circuit_transpilation.
    pose proof (transpilation_loop_decomposed_all pi []
                  (qc_data (transpile circ)) []) as Hloop.
    cbn [app length] in Hloop. rewrite Hloop.
    by destruct (decomposed_all pi (qc_data (transpile circ))). }
  split; [done|]. intros Hops. rewrite Heq.
  destruct (decomposed_all_has_operands pi _ Hops) as (os & -> & Hlen).
  eexists. by split_and!.
Qed.

(** X10.  Every instruction of the circuit that
    [qiskit_circuit_transpilation] returns is a [cx], an [rz] by an angle
    that is not zero, an [rx] by [π / 2], an [x] or a [measure]: no [sx], no
    [rz] by a zero angle and no other gate is left. *)
Theorem qiskit_circuit_transpilation_gate_set (pi : Q)
    (transpile : QuantumCircuit → QuantumCircuit)
    (circ circ_new : QuantumCircuit) :
  qiskit_circuit_transpilation pi transpile circ = Returns circ_new →
  Forall (in_gate_set pi) (qc_data circ_new)
  ∧ Forall (λ o, gate_name o ∈ ["cx"; "rz"; "rx"; "x"; "measure"])
      (qc_data circ_new).
Proof.
  intros Hrun.
  assert (Forall (in_gate_set pi) (qc_data circ_new)) as Hset.
  { unfold qiskit_circuit_transpilation in Hrun.
    pose proof (transpilation_loop_decomposed_all pi []
                  (qc_data (transpile circ)) []) as Hloop.
    cbn [app length] in Hloop. rewrite Hloop in Hrun. clear Hloop.
    destruct (decomposed_all pi (qc_data (transpile circ))) as [os|e] eqn:Hos;
      [|done].
    cbn [outcome_bind app] in Hrun. injection Hrun as <-. cbn [qc_data].
    apply decomposed_all_filter in Hos.
    induction Hos as [|instr o kept os Ho _ IH]; constructor; [|done].
    by eapply decomposed_Some_in_gate_set. }
  split; [done|]. eapply Forall_impl; [exact Hset|].
  intros o [(c & t & ->)|[(θ & q & -> & _)|[(q & ->)|[(q & ->)|(q & c & ->)]]]];
    cbn [gate_name instr_cx instr_rz instr_rx instr_x instr_measure];
    rewrite !elem_of_cons; tauto.
Qed.

(** X11.  The instructions of the circuit that
    [qiskit_circuit_transpilation] returns are, in the order of the
    transpiled circuit and one for one, the translations of its [cx], [sx],
    [x] and [measure] instructions and of its [rz] instructions whose angle
    is not a multiple of [2π]; each acts on qubits and classical bits of the
    instruction it translates.  Every other instruction is left out. *)
Theorem qiskit_circuit_transpilation_keeps_order (pi : Q)
    (transpile : QuantumCircuit → QuantumCircuit)
    (circ circ_new : QuantumCircuit) :
  qiskit_circuit_transpilation pi transpile circ = Returns circ_new →
  Forall2 (λ instr o,
             decomposed pi instr = Returns (Some o)
             ∧ instr_qubits o ⊆ instr_qubits instr
             ∧ instr_clbits o ⊆ instr_clbits instr)
    (filter (λ instr, is_kept pi instr) (qc_data (transpile circ)))
    (qc_data circ_new)
  ∧ length (qc_data circ_new)
    = length (filter (λ instr, is_kept pi instr) (qc_data (transpile circ))).
Proof.
  intros Hrun. unfold qiskit_circuit_transpilation in Hrun.
  pose proof (transpilation_loop_decomposed_all pi []
                (qc_data (transpile circ)) []) as Hloop.
  cbn [app length] in Hloop. rewrite Hloop in Hrun. clear Hloop.
  destruct (decomposed_all pi (qc_data (transpile circ))) as [os|e] eqn:Hos;
    [|done].
  cbn [outcome_bind app] in Hrun. injection Hrun as <-. cbn [qc_data].
  apply decomposed_all_filter in Hos.
  split; [|symmetry; by eapply Forall2_length].
  eapply Forall2_impl; [exact Hos|].
  intros instr o Ho. split; [done|].
  exact (decomposed_Some_operands pi instr o Ho).
Qed.

(** * The model on concrete inputs *)


Lemma remove_dups_layout {A} `{EqDecision A} (l : list A) :
  remove_dups l ≡ₚ remove_dups l.
Proof. reflexivity. Defined.

Lemma example_store_is_observable :
  is_observable example_store 2%positive example_terms.
Proof.
  exists 1%positive. split_and!; [done|done|].
  apply (bool_decide_unpack (NoDup example_terms)). by vm_compute.
Defined.

Lemma partition_is_partition_into_compatible_groups_witness :
  is_observable example_store 2%positive example_terms
  ∧ ∃ groups h',
      partition remove_dups 2%positive example_store = Ok (groups, h')
      ∧ (∀ G p q, G ∈ groups → p ∈ G → q ∈ G →
                  can_be_measured_with p q = true)
      ∧ ⋃ (elements groups) = list_to_set example_terms
      ∧ (∀ t, t ∈ example_terms ↔ ∃ G, G ∈ groups ∧ t ∈ G)
      ∧ (∀ G1 G2 t, G1 ∈ groups → G2 ∈ groups → t ∈ G1 → t ∈ G2 → G1 = G2).
Proof.
  split; [exact example_store_is_observable|].
  apply (partition_is_partition_into_compatible_groups
           remove_dups remove_dups_layout).
  exact example_store_is_observable.
Defined.

Lemma partition_is_greedy_first_fit_witness :
  is_observable example_store 2%positive example_terms
  ∧ ∃ groups h',
      partition remove_dups 2%positive example_store = Ok (groups, h')
      ∧ remove_dups example_terms ≡ₚ example_terms
      ∧ (∀ G : gset (PauliString GaussZ),
           G ∈ groups
           ↔ ∃ g, g ∈ first_fit (remove_dups example_terms)
                  ∧ ∀ t, t ∈ G ↔ t ∈ g).
Proof.
  split; [exact example_store_is_observable|].
  apply (partition_is_greedy_first_fit remove_dups remove_dups_layout).
  exact example_store_is_observable.
Defined.

(** On the three terms [X0], [X1] and [Z0], taken in this order, first-fit
    puts [X1] with [X0] and leaves [Z0] alone. *)
Example first_fit_example :
  first_fit example_terms = [[term_X0; term_X1]; [term_Z0]].
Proof. by vm_compute. Qed.

Lemma matrix_is_sum_of_embedded_terms_witness :
  is_observable example_store 2%positive example_terms
  ∧ ∃ idx Mx,
      qubit_indices 2%positive example_store = Ok (idx, example_store)
      ∧ matrix 2%positive example_store = Ok (Mx, example_store)
      ∧ has_shape (2 ^ length idx) (2 ^ length idx) Mx
      ∧ Mx = matrix_sum (2 ^ length idx) (2 ^ length idx)
               (pauli_matrix idx <$> example_terms).
Proof.
  split; [exact example_store_is_observable|].
  destruct (matrix_is_sum_of_embedded_terms example_store 2%positive
              example_terms example_store_is_observable)
    as (idx & Mx & Hidx & _ & _ & _ & _ & Hrun & Hshape & _ & Hsum & _).
  exists idx, Mx. by split_and!.
Defined.


Example matrix_example :
  ∃ self h,
    Observable_init remove_dups [term_ZI; term_IX] ∅ = Ok (self, h)
    ∧ qubit_indices self h = Ok ([0; 1]%Z, h)
    ∧ pauli_matrix [0; 1]%Z term_ZI
      = [[Gauss 1 0; Gauss 0 0; Gauss 0 0; Gauss 0 0];
         [Gauss 0 0; Gauss 1 0; Gauss 0 0; Gauss 0 0];
         [Gauss 0 0; Gauss 0 0; Gauss (-1) 0; Gauss 0 0];
         [Gauss 0 0; Gauss 0 0; Gauss 0 0; Gauss (-1) 0]]
    ∧ pauli_matrix [0; 1]%Z term_IX
      = [[Gauss 0 0; Gauss 1 0; Gauss 0 0; Gauss 0 0];
         [Gauss 1 0; Gauss 0 0; Gauss 0 0; Gauss 0 0];
         [Gauss 0 0; Gauss 0 0; Gauss 0 0; Gauss 1 0];
         [Gauss 0 0; Gauss 0 0; Gauss 1 0; Gauss 0 0]]
    ∧ matrix self h
      = Ok ([[Gauss 1 0; Gauss 1 0; Gauss 0 0; Gauss 0 0];
             [Gauss 1 0; Gauss 1 0; Gauss 0 0; Gauss 0 0];
             [Gauss 0 0; Gauss 0 0; Gauss (-1) 0; Gauss 1 0];
             [Gauss 0 0; Gauss 0 0; Gauss 1 0; Gauss (-1) 0]], h).
Proof.
  destruct (Observable_init remove_dups [term_ZI; term_IX] ∅)
    as [[self h]|e] eqn:Hinit; [|by vm_compute in Hinit].
  exists self, h. split; [done|].
  assert (is_observable h self [term_ZI; term_IX]) as Hobs.
  { destruct (Observable_init_run remove_dups remove_dups_layout ∅
                [term_ZI; term_IX]) as (self' & h' & Hinit' & Hobs & _).
    rewrite Hinit in Hinit'. by simplify_eq. }
  rewrite (qubit_indices_run _ _ _ Hobs), (matrix_run _ _ _ Hobs).
  split_and!; by vm_compute.
Qed.


Lemma rotated_layout_perm {A} `{EqDecision A} (l : list A) :
  rotated_layout l ≡ₚ remove_dups l.
Proof.
  unfold rotated_layout. destruct (remove_dups l) as [|x l']; [done|].
  symmetry. apply Permutation_cons_append.
Qed.


(** Against C8 as stated: two runs on equal inputs need not return equal
    results.  With the terms [X0], [X1], [Z0], a run in which the sets iterate
    in the order of first occurrence and a run in which they iterate in the
    rotated order get different sets of groups from [partition]. *)
Lemma partition_depends_on_iteration_order :
  ¬ (∀ layout1 layout2 : list (PauliString GaussZ) → list (PauliString GaussZ),
       (∀ l, layout1 l ≡ₚ remove_dups l) →
       (∀ l, layout2 l ≡ₚ remove_dups l) →
       ∀ paulis,
         returned (let! o := Observable_init layout1 paulis in
                   partition layout1 o)
         = returned (let! o := Observable_init layout2 paulis in
                     partition layout2 o)).
Proof.
  intros Hall.
  specialize (Hall remove_dups rotated_layout remove_dups_layout
                rotated_layout_perm example_terms).
  apply (bool_decide_pack _) in Hall. by vm_compute in Hall.
Qed.

(** The two groupings of the counterexample. *)
Example partition_in_two_orders :
  returned (let! o := Observable_init remove_dups example_terms in
            partition remove_dups o)
  = Some {[ {[term_X0; term_X1]}; {[term_Z0]} ]}
  ∧ returned (let! o := Observable_init rotated_layout example_terms in
              partition rotated_layout o)
    = Some {[ {[term_Z0; term_X1]}; {[term_X0]} ]}.
Proof. split; apply (bool_decide_unpack _); by vm_compute. Qed.

(** Within one iteration order too, the grouping depends on how the set was
    built: the same three terms given in another sequence. *)
Example partition_in_two_argument_orders :
  returned (let! o := Observable_init remove_dups [term_X0; term_X1; term_Z0] in
            partition remove_dups o)
  = Some {[ {[term_X0; term_X1]}; {[term_Z0]} ]}
  ∧ returned (let! o := Observable_init remove_dups
                          [term_Z0; term_X0; term_X1] in
              partition remove_dups o)
    = Some {[ {[term_Z0; term_X1]}; {[term_X0]} ]}.
Proof. split; apply (bool_decide_unpack _); by vm_compute. Qed.

Lemma example_states_same : same_state example_state example_state'.
Proof.
  split_and!; [|done..]. intros i. simpl. f_equal. lia.
Defined.

Lemma example_store_elsewhere_is_observable :
  is_observable example_store_elsewhere 5%positive example_terms.
Proof.
  exists 3%positive. split_and!; [done|done|].
  apply (bool_decide_unpack (NoDup example_terms)). by vm_compute.
Defined.

Lemma operations_deterministic_for_fixed_iteration_order_witness :
  is_observable example_store 2%positive example_terms
  ∧ is_observable example_store_elsewhere 5%positive example_terms
  ∧ (∃ groups h1 h2,
       partition remove_dups 2%positive example_store = Ok (groups, h1)
       ∧ partition remove_dups 2%positive h1 = Ok (groups, h2))
  ∧ (∃ groups h1 h1',
       partition remove_dups 2%positive example_store = Ok (groups, h1)
       ∧ partition remove_dups 5%positive example_store_elsewhere
         = Ok (groups, h1'))
  ∧ (generate_training_circuits example_pi example_tol example_kernel
       1%positive 2 (1 # 2) "random" "random" (1 # 2) (1 # 2) example_state).1
    = (generate_training_circuits example_pi example_tol example_kernel
         1%positive 2 (1 # 2) "random" "random" (1 # 2) (1 # 2)
         example_state').1.
Proof.
  split; [exact example_store_is_observable|].
  split; [exact example_store_elsewhere_is_observable|].
  destruct (operations_deterministic_for_fixed_iteration_order
              remove_dups remove_dups_layout)
    as (Hagain & Hsame & _ & Hrandom).
  split_and!.
  - apply (Hagain example_store 2%positive example_terms).
    exact example_store_is_observable.
  - apply (Hsame example_store 2%positive example_store_elsewhere 5%positive
             example_terms).
    + exact example_store_is_observable.
    + exact example_store_elsewhere_is_observable.
  - destruct (Hrandom example_pi example_tol example_kernel [] 1%positive 2
                (1 # 2)%Q "random" "random" (1 # 2)%Q (1 # 2)%Q)
      as (_ & _ & Hgen).
    apply (Hgen example_state example_state' example_states_same).
Defined.

Lemma observable_of_zero_terms_witness :
  ∃ self h1,
    Observable_init (C := GaussZ) remove_dups [] ∅ = Ok (self, h1)
    ∧ nterms self h1 = Ok (0, h1)
    ∧ qubit_indices self h1 = Ok ([], h1)
    ∧ nqubits self h1 = Ok (0, h1)
    ∧ (∃ h2, partition remove_dups self h1 = Ok (∅, h2))
    ∧ matrix self h1 = Ok ([[czero]], h1).
Proof. apply (observable_of_zero_terms remove_dups remove_dups_layout ∅). Defined.


Lemma example_pi_pos : (0 < example_pi)%Q.
Proof. reflexivity. Defined.

Lemma example_tol_pos : (0 < example_tol)%Q.
Proof. reflexivity. Defined.

Example count_non_cliffords_example :
  count_non_cliffords example_pi example_tol example_circuit = 2.
Proof. by vm_compute. Qed.


Lemma replaced_angles_are_clifford_witness :
  ∃ replaced s',
    _replace example_pi example_kernel [(1 # 3); (7 # 5)]%Q "probabilistic"
      (1 # 2) (1 # 2) example_state = (Ok replaced, s')
    ∧ length replaced = 2
    ∧ Forall (λ θ, _is_clifford_angle example_pi example_tol θ = true) replaced.
Proof.
  apply (replaced_angles_are_clifford example_pi example_tol example_kernel
           example_pi_pos example_tol_pos).
  do 2 (apply elem_of_cons; right). apply elem_of_cons. by left.
Defined.

Lemma closest_clifford_within_quarter_pi_witness :
  _closest_clifford example_pi (5 # 3) = (example_pi / 2)%Q.
Proof.
  apply (proj1 (closest_clifford_within_quarter_pi example_pi example_pi_pos
                  (5 # 3) (example_pi / 2))).
  - do 1 (apply elem_of_cons; right). apply elem_of_cons. by left.
  - reflexivity.
Defined.


Lemma queries_leave_observable_and_circuit_unchanged_witness :
  (∃ groups h',
     partition remove_dups 2%positive example_store = Ok (groups, h')
     ∧ is_observable h' 2%positive example_terms)
  ∧ (∀ r s',
       generate_training_circuits example_pi example_tol example_kernel
         1%positive 2 (1 # 2) "random" "random" (1 # 2) (1 # 2) example_state
       = (r, s') →
       circuits s' !! 1%positive = Some example_circuit).
Proof.
  destruct (queries_leave_observable_and_circuit_unchanged remove_dups
              example_store 2%positive example_terms example_pi example_tol
              example_kernel example_state 1%positive example_circuit 2
              (1 # 2) "random" "random" (1 # 2) (1 # 2)
              example_store_is_observable eq_refl)
    as [(k & idx & Mx & _ & _ & _ & _ & groups & h' & Hrun & _ & Hobs & _) Hgen].
  split.
  - by exists groups, h'.
  - intros r s' Hrun'. by destruct (Hgen r s' Hrun').
Defined.

(** * The further properties on concrete inputs *)

Lemma example_store_rotated_is_observable :
  is_observable example_store_rotated 2%positive [term_Z0; term_X0; term_X1].
Proof.
  exists 1%positive. split_and!; [done|done|].
  apply (bool_decide_unpack (NoDup [term_Z0; term_X0; term_X1])). by vm_compute.
Defined.

Lemma example_store_compatible_is_observable :
  is_observable example_store_compatible 2%positive [term_X0; term_X1].
Proof.
  exists 1%positive. split_and!; [done|done|].
  apply (bool_decide_unpack (NoDup [term_X0; term_X1])). by vm_compute.
Defined.

Lemma example_store_incompatible_is_observable :
  is_observable example_store_incompatible 2%positive [term_X0; term_Z0].
Proof.
  exists 1%positive. split_and!; [done|done|].
  apply (bool_decide_unpack (NoDup [term_X0; term_Z0])). by vm_compute.
Defined.

Lemma example_terms_same :
  ∀ t, t ∈ example_terms ↔ t ∈ [term_Z0; term_X0; term_X1].
Proof.
  intros t. unfold example_terms. rewrite !elem_of_cons, !elem_of_nil. tauto.
Defined.

Lemma Observable_init_collapses_duplicates_witness :
  ∃ self h' terms,
    Observable_init remove_dups [term_X0; term_X0; term_Z0] ∅ = Ok (self, h')
    ∧ is_observable h' self terms
    ∧ (∀ t, t ∈ terms ↔ t ∈ [term_X0; term_X0; term_Z0])
    ∧ nterms self h' = Ok (length (remove_dups [term_X0; term_X0; term_Z0]), h')
    ∧ length (remove_dups [term_X0; term_X0; term_Z0]) ≤ 3
    ∧ (NoDup [term_X0; term_X0; term_Z0] → nterms self h' = Ok (3, h'))
    ∧ preserved ∅ h'.
Proof.
  apply (Observable_init_collapses_duplicates remove_dups
           [term_X0; term_X0; term_Z0] ∅ remove_dups_layout).
Defined.

Lemma qubit_indices_strictly_increasing_witness :
  ∃ qs idx,
    _qubits 2%positive example_store = Ok (qs, example_store)
    ∧ qubit_indices 2%positive example_store = Ok (idx, example_store)
    ∧ nqubits 2%positive example_store = Ok (size qs, example_store)
    ∧ StronglySorted Z.lt idx
    ∧ (∀ q, q ∈ idx ↔ q ∈ qs)
    ∧ (∀ q, q ∈ qs ↔ ∃ t, t ∈ example_terms ∧ q ∈ pauli_qubits t).
Proof.
  apply (qubit_indices_strictly_increasing example_store 2%positive
           example_terms example_store_is_observable).
Defined.

Lemma qubit_indices_independent_of_iteration_order_witness :
  ∃ k idx,
    nterms 2%positive example_store = Ok (k, example_store)
    ∧ nterms 2%positive example_store_rotated = Ok (k, example_store_rotated)
    ∧ qubit_indices 2%positive example_store = Ok (idx, example_store)
    ∧ qubit_indices 2%positive example_store_rotated
      = Ok (idx, example_store_rotated)
    ∧ nqubits 2%positive example_store = Ok (length idx, example_store)
    ∧ nqubits 2%positive example_store_rotated
      = Ok (length idx, example_store_rotated).
Proof.
  apply (qubit_indices_independent_of_iteration_order
           example_store 2%positive example_terms
           example_store_rotated 2%positive [term_Z0; term_X0; term_X1]
           example_store_is_observable example_store_rotated_is_observable
           example_terms_same).
Defined.

Lemma GaussZ_add_comm (a b : GaussZ) : cadd a b = cadd b a.
Proof. destruct a, b. simpl. f_equal; lia. Defined.

Lemma GaussZ_add_assoc (a b c : GaussZ) :
  cadd a (cadd b c) = cadd (cadd a b) c.
Proof. destruct a, b, c. simpl. f_equal; lia. Defined.

Lemma matrix_independent_of_iteration_order_witness :
  ∃ Mx,
    matrix 2%positive example_store = Ok (Mx, example_store)
    ∧ matrix 2%positive example_store_rotated = Ok (Mx, example_store_rotated).
Proof.
  apply (matrix_independent_of_iteration_order
           example_store 2%positive example_terms
           example_store_rotated 2%positive [term_Z0; term_X0; term_X1]
           GaussZ_add_comm GaussZ_add_assoc
           example_store_is_observable example_store_rotated_is_observable
           example_terms_same).
Defined.

Lemma partition_groups_cannot_be_merged_witness :
  ∃ groups h',
    partition remove_dups 2%positive example_store = Ok (groups, h')
    ∧ ∀ G1 G2, G1 ∈ groups → G2 ∈ groups → G1 ≠ G2 →
        ∃ p q, p ∈ G1 ∧ q ∈ G2 ∧ can_be_measured_with p q = false.
Proof.
  apply (partition_groups_cannot_be_merged remove_dups example_store
           2%positive example_terms example_store_is_observable).
Defined.

Lemma partition_group_count_witness :
  ∃ groups h',
    partition remove_dups 2%positive example_store = Ok (groups, h')
    ∧ nterms 2%positive h' = Ok (length example_terms, h')
    ∧ (∅ ∉ groups)
    ∧ size groups ≤ length example_terms
    ∧ (example_terms ≠ [] → 0 < size groups)
    ∧ sum_list (size <$> elements groups) = length example_terms.
Proof.
  apply (partition_group_count remove_dups remove_dups_layout example_store
           2%positive example_terms example_store_is_observable).
Defined.

Lemma partition_of_compatible_terms_witness :
  ∃ h',
    partition remove_dups 2%positive example_store_compatible
    = Ok ({[ list_to_set [term_X0; term_X1] ]}, h').
Proof.
  apply (partition_of_compatible_terms remove_dups remove_dups_layout
           example_store_compatible 2%positive [term_X0; term_X1]
           example_store_compatible_is_observable).
  - discriminate.
  - intros p q Hp Hq.
    repeat (apply elem_of_cons in Hp as [->|Hp]);
      repeat (apply elem_of_cons in Hq as [->|Hq]);
      try (by apply elem_of_nil in Hp); try (by apply elem_of_nil in Hq);
      by vm_compute.
Defined.

Lemma partition_of_incompatible_terms_witness :
  ∃ h',
    partition remove_dups 2%positive example_store_incompatible
    = Ok (list_to_set ((λ t, {[ t ]}) <$> [term_X0; term_Z0]), h')
    ∧ size (list_to_set ((λ t, {[ t ]}) <$> [term_X0; term_Z0])
              : gset (gset (PauliString GaussZ))) = 2.
Proof.
  apply (partition_of_incompatible_terms remove_dups remove_dups_layout
           example_store_incompatible 2%positive [term_X0; term_Z0]
           example_store_incompatible_is_observable).
  intros p q Hp Hq Hne.
  repeat (apply elem_of_cons in Hp as [->|Hp]);
    repeat (apply elem_of_cons in Hq as [->|Hq]);
    try (by apply elem_of_nil in Hp); try (by apply elem_of_nil in Hq);
    try done; by vm_compute.
Defined.

Lemma example_qiskit_circuit_has_operands :
  Forall has_operands (qc_data example_qiskit_circuit).
Proof.
  unfold example_qiskit_circuit. cbn [qc_data].
  repeat (apply Forall_cons; split;
          [unfold has_operands;
           cbn [gate_name gate_params instr_qubits instr_clbits length];
           split_and!; intros Hname; first [discriminate Hname|lia]|]).
  constructor.
Defined.

Lemma example_transpilation_run :
  qiskit_circuit_transpilation example_pi id example_qiskit_circuit
  = Returns example_transpiled_circuit.
Proof. vm_compute. reflexivity. Defined.

Lemma qiskit_circuit_transpilation_returns_witness :
  Forall has_operands (qc_data example_qiskit_circuit)
  ∧ ∃ circ_new,
      qiskit_circuit_transpilation example_pi id example_qiskit_circuit
      = Returns circ_new
      ∧ qc_qubits circ_new = 2
      ∧ qc_clbits circ_new = 2
      ∧ length (qc_data circ_new) ≤ 8.
Proof.
  split; [exact example_qiskit_circuit_has_operands|].
  exact (proj2 (qiskit_circuit_transpilation_returns example_pi id
                  example_qiskit_circuit)
           example_qiskit_circuit_has_operands).
Defined.

Lemma qiskit_circuit_transpilation_gate_set_witness :
  Forall (in_gate_set example_pi) (qc_data example_transpiled_circuit)
  ∧ Forall (λ o, gate_name o ∈ ["cx"; "rz"; "rx"; "x"; "measure"])
      (qc_data example_transpiled_circuit).
Proof.
  apply (qiskit_circuit_transpilation_gate_set example_pi id
           example_qiskit_circuit example_transpiled_circuit
           example_transpilation_run).
Defined.

Lemma qiskit_circuit_transpilation_keeps_order_witness :
  Forall2 (λ instr o,
             decomposed example_pi instr = Returns (Some o)
             ∧ instr_qubits o ⊆ instr_qubits instr
             ∧ instr_clbits o ⊆ instr_clbits instr)
    (filter (λ instr, is_kept example_pi instr)
       (qc_data example_qiskit_circuit))
    (qc_data example_transpiled_circuit)
  ∧ length (qc_data example_transpiled_circuit)
    = length (filter (λ instr, is_kept example_pi instr)
                (qc_data example_qiskit_circuit)).
Proof.
  apply (qiskit_circuit_transpilation_keeps_order example_pi id
           example_qiskit_circuit example_transpiled_circuit
           example_transpilation_run).
Defined.
